(** * fast_uot: the Berg-entropy Sinkhorn core ([fastuot/numpy_berg.py])

    A shallow embedding of [numpy_berg.py] and the properties of its
    Lambert-W solver, proximal operator, translation rescaling and the
    three Sinkhorn loops.

    Numbers.  The program computes with binary64 floats; here every float
    is an exact real of [R], so rounding, overflow, [inf] and [nan] are
    outside the model.  Division and [ln] are the total functions of the
    Standard Library ([x / 0 = 0], [ln x = 0] for [x <= 0]) where numpy
    yields [inf] or [nan]; every concrete evaluation below stays away
    from such points.

    Arrays.  A 1-D array is a [list R], a 2-D array a list of rows.
    Whole-array arithmetic goes through [broadcast], which follows
    numpy: equal lengths combine pointwise, a length-1 operand is
    stretched, anything else is a shape error ([None]). *)

From Stdlib Require Import String.
From Stdlib Require Import Reals Lra Lia List ZArith Bool.
Import ListNotations.
Open Scope R_scope.

(** ** Errors: a shape mismatch raises, modelled by [None] *)

Definition bind {A B : Type} (m : option A) (k : A -> option B) : option B :=
  match m with
  | Some a => k a
  | None => None
  end.

Notation "x <- m ;; k" := (bind m (fun x => k))
  (at level 61, m at next level, right associativity).

(** ** numpy primitives *)

Module Np.

Definition vec := list R.
Definition matrix := list (list R).

(** Comparisons producing boolean masks. *)
Definition ltb (x y : R) : bool := if Rlt_dec x y then true else false.
Definition leb (x y : R) : bool := if Rle_dec x y then true else false.
Definition gtb (x y : R) : bool := ltb y x.
Definition geb (x y : R) : bool := leb y x.
Definition eqb (x y : R) : bool := if Req_dec_T x y then true else false.

(** Array-with-scalar arithmetic: [x op c] and [c op x]. *)
Definition vs (op : R -> R -> R) (x : vec) (c : R) : vec :=
  map (fun xi => op xi c) x.
Definition sv (op : R -> R -> R) (c : R) (x : vec) : vec :=
  map (fun xi => op c xi) x.

Definition neg (x : vec) : vec := map Ropp x.

Fixpoint traverse {A B : Type} (f : A -> option B) (l : list A)
  : option (list B) :=
  match l with
  | [] => Some []
  | a :: l' => b <- f a ;; r <- traverse f l' ;; Some (b :: r)
  end.

Fixpoint zip_with {A B C : Type} (op : A -> B -> option C)
  (u : list A) (v : list B) : option (list C) :=
  match u, v with
  | [], [] => Some []
  | x :: u', y :: v' =>
      c <- op x y ;; r <- zip_with op u' v' ;; Some (c :: r)
  | _, _ => None
  end.

(** Broadcasting along one axis. *)
Definition broadcast {A B C : Type} (op : A -> B -> option C)
  (u : list A) (v : list B) : option (list C) :=
  match u, v with
  | [x], _ => traverse (op x) v
  | _, [y] => traverse (fun x => op x y) u
  | _, _ => zip_with op u v
  end.

(** Array-with-array arithmetic on 1-D and on 2-D arrays. *)
Definition vv (op : R -> R -> R) (u v : vec) : option vec :=
  broadcast (fun x y => Some (op x y)) u v.
Definition mm (op : R -> R -> R) (U V : matrix) : option matrix :=
  broadcast (vv op) U V.

(** [np.sum] of a 1-D array and of a 2-D array. *)
Definition sum (x : vec) : R := fold_left Rplus x 0.
Definition msum (M : matrix) : R := sum (concat M).

Definition zeros_like (x : vec) : vec := map (fun _ => 0) x.

(** [x[m]]: the entries of [x] selected by the boolean mask [m]. *)
Fixpoint mask_get (x : vec) (m : list bool) : option vec :=
  match x, m with
  | [], [] => Some []
  | xi :: x', mi :: m' =>
      r <- mask_get x' m' ;; Some (if mi then xi :: r else r)
  | _, _ => None
  end.

(** [z[m] = c] with a scalar [c]. *)
Fixpoint mask_fill (z : vec) (m : list bool) (c : R) : option vec :=
  match z, m with
  | [], [] => Some []
  | zi :: z', mi :: m' =>
      r <- mask_fill z' m' c ;; Some ((if mi then c else zi) :: r)
  | _, _ => None
  end.

(** [z[m] = v] consuming the entries of [v] in order. *)
Fixpoint mask_put (z : vec) (m : list bool) (v : vec) : option vec :=
  match z, m with
  | [], [] => match v with [] => Some [] | _ => None end
  | zi :: z', true :: m' =>
      match v with
      | y :: v' => r <- mask_put z' m' v' ;; Some (y :: r)
      | [] => None
      end
  | zi :: z', false :: m' => r <- mask_put z' m' v ;; Some (zi :: r)
  | _, _ => None
  end.

(** [z[m] = v] with an array [v]: a length-1 [v] is stretched. *)
Definition mask_set (z : vec) (m : list bool) (v : vec) : option vec :=
  match v with
  | [y] => mask_fill z m y
  | _ => mask_put z m v
  end.

(** [m1 & m2] on masks built from the same array. *)
Definition mask_and (m1 m2 : list bool) : option (list bool) :=
  zip_with (fun p q => Some (p && q)) m1 m2.

(** [range(n)] runs its body [n] times, and not at all for [n <= 0]. *)
Definition for_range {S : Type} (n : Z) (body : S -> option S) (s : S)
  : option S :=
  Nat.iter (Z.to_nat n) (fun acc => s' <- acc ;; body s') (Some s).

End Np.

Import Np.

(** ** Lambert function *)

Definition pade (x : vec) : option vec :=
  let x2 := map (fun xi => xi ^ 2) x in
  n1 <- vv Rplus (sv Rplus 3 (sv Rmult 6 x)) x2 ;;
  num <- vv Rmult x n1 ;;
  den <- vv Rplus (sv Rplus 3 (sv Rmult 9 x)) (sv Rmult 5 x2) ;;
  vv Rdiv num den.

(** Each mask expression of the source is pure and is written twice
    there (once to select, once to assign); it is bound once here. *)
Definition init_lambertw (x : vec) : option vec :=
  let z0 := zeros_like x in
  let hi := map (fun xi => gtb xi 1) x in
  let lo := map (fun xi => ltb xi (-2)) x in
  xhi <- mask_get x hi ;;
  z0 <- mask_set z0 hi xhi ;;
  xlo <- mask_get x lo ;;
  vlo <- vv Rmult (map exp xlo) (sv Rminus 1 (map exp xlo)) ;;
  z0 <- mask_set z0 lo vlo ;;
  mid <- mask_and (map (fun xi => leb xi 1) x)
                  (map (fun xi => geb xi (-2)) x) ;;
  xmid <- mask_get x mid ;;
  vmid <- pade (map exp xmid) ;;
  z0 <- mask_set z0 mid vmid ;;
  mask_fill z0 (map (fun zi => eqb zi 0) z0) 1e-6.

(** The local function [a] of [log_lambertw]; it closes over [x]. *)
Definition lw_a (x w : vec) : option vec :=
  t1 <- vv Rplus (map ln (vs Rplus w 1e-17)) w ;;
  t2 <- vv Rminus t1 x ;;
  t3 <- vv Rmult w t2 ;;
  vv Rdiv t3 (sv Rplus 1 w).

(** The local function [b] of [log_lambertw]. *)
Definition lw_b (w : vec) : option vec :=
  t <- vv Rmult w (sv Rplus 1 w) ;;
  Some (sv Rdiv (-1) t).

(** The body of the [for i in range(5)] loop. *)
Definition lw_body (x z : vec) : option vec :=
  c <- lw_a x z ;;
  bz <- lw_b z ;;
  cb <- vv Rmult (sv Rmult 0.5 c) bz ;;
  q <- vv Rdiv c (sv Rminus 1 cb) ;;
  d <- vv Rminus z q ;;
  Some (vs Rmax d 1e-17).

Definition log_lambertw (x : vec) : option vec :=
  z <- init_lambertw x ;;
  for_range 5 (lw_body x) z.


(** ** Properties of Berg entropy *)

(** [phis_ent] is only applied to a 2-D array, [phis_berg] to 1-D ones. *)
Definition phis_ent (x : matrix) (s : R) : matrix :=
  map (fun row => sv Rmult (- s) (vs Rminus (map exp (vs Rdiv (neg row) s)) 1))
      x.

Definition phis_berg (x : vec) (s : R) : vec :=
  sv Rmult (- s) (map ln (sv Rminus 1 (vs Rdiv x s))).

(** A parameter declared [p=None] and replaced in the body by [d]. *)
Definition or_default {T : Type} (p : option T) (d : T) : T :=
  match p with
  | Some v => v
  | None => d
  end.

(** [a[:, None]] and [b[None, :]]. *)
Definition column (a : vec) : matrix := map (fun ai => [ai]) a.
Definition row (b : vec) : matrix := [b].

Definition dual_score_ent (f g a b : vec) (C : matrix) (eps rho : R)
  (rho2 : option R) : option R :=
  let rho2 := or_default rho2 rho in
  t1 <- vv Rmult a (phis_berg f rho) ;;
  t2 <- vv Rmult b (phis_berg g rho2) ;;
  ab <- mm Rmult (column a) (row b) ;;
  cf <- mm Rminus C (column f) ;;
  cfg <- mm Rminus cf (row g) ;;
  t3 <- mm Rmult ab (phis_ent cfg eps) ;;
  Some (sum t1 + sum t2 + msum t3).

Definition aprox_berg (x : vec) (eps rho : R) : option vec :=
  let delta := sv Rminus (rho / eps + ln (rho / eps)) (vs Rdiv x eps) in
  w <- log_lambertw delta ;;
  Some (sv Rminus rho (sv Rmult eps w)).

Definition grad_phis_berg (x : vec) (s : R) : vec :=
  sv Rdiv 1 (sv Rminus 1 (vs Rdiv x s)).

Definition hess_phis_berg (x : vec) (s : R) : vec :=
  sv Rdiv 1 (sv Rmult s (map (fun y => y ^ 2) (sv Rminus 1 (vs Rdiv x s)))).

(** ** Optimisation of translation invariance *)

Definition grad_invariant (t : R) (f g a b : vec) (rho rho2 : R)
  : option R :=
  u <- vv Rmult a (grad_phis_berg (vs Rminus (neg f) t) rho) ;;
  v <- vv Rmult b (grad_phis_berg (vs Rplus (neg g) t) rho2) ;;
  Some (sum u - sum v).

Definition hess_invariant (t : R) (f g a b : vec) (rho rho2 : R)
  : option R :=
  u <- vv Rmult a (hess_phis_berg (vs Rminus (neg f) t) rho) ;;
  v <- vv Rmult b (hess_phis_berg (vs Rplus (neg g) t) rho2) ;;
  Some (- sum u - sum v).

(** One pass of the [for k in range(nits)] loop of [rescale_berg]. *)
Definition newton_body (f g a b : vec) (rho rho2 : R) (t : R) : option R :=
  grad <- grad_invariant t f g a b rho rho2 ;;
  hess <- hess_invariant t f g a b rho rho2 ;;
  Some (t - grad / hess).

Definition rescale_berg (f g a b : vec) (rho : R) (rho2 : option R)
  (nits : option Z) (init : option R) : option R :=
  let rho2 := or_default rho2 rho in
  let nits := or_default nits 10%Z in
  let init := or_default init 0 in
  for_range nits (newton_body f g a b rho rho2) init.

(** ** Sinkhorn loops *)

Section SinkhornLoops.

(** [sinkx] and [sinky] are imported from [fastuot.numpy_sinkhorn], which
    is not part of the sources at hand: the loops are embedded over any
    pair of functions of their arity, shape errors included. *)
Variable sinkx : matrix -> vec -> vec -> R -> option vec.
Variable sinky : matrix -> vec -> vec -> R -> option vec.

Definition f_sinkhorn_loop (f a b : vec) (C : matrix) (eps rho : R)
  (rho2 : option R) : option (vec * vec) :=
  let rho2 := or_default rho2 rho in
  g <- sinkx C f a eps ;;
  g <- (p <- aprox_berg (neg g) eps rho2 ;; Some (neg p)) ;;
  f <- sinky C g b eps ;;
  f <- (p <- aprox_berg (neg f) eps rho ;; Some (neg p)) ;;
  Some (f, g).

(** The statement [g = -aprox_berg(-(gs - t), eps, rho2) + t] of
    [h_sinkhorn_loop], and its twin for [f]. *)
Definition h_update_g (gs : vec) (t eps rho2 : R) : option vec :=
  p <- aprox_berg (neg (vs Rminus gs t)) eps rho2 ;;
  Some (vs Rplus (neg p) t).

Definition h_update_f (fs : vec) (t eps rho : R) : option vec :=
  p <- aprox_berg (neg (vs Rplus fs t)) eps rho ;;
  Some (vs Rminus (neg p) t).

(** Each inner loop assigns [g] (resp. [f]) and [t]; the array is
    assigned again right after the loop before any use, so the state
    carried from one pass to the next is [t]. *)
Definition h_sinkhorn_loop (f a b : vec) (C : matrix) (eps rho : R)
  (rho2 : option R) (nits : option Z) : option (vec * vec) :=
  let rho2 := or_default rho2 rho in
  let nits := or_default nits 20%Z in
  let t := 0 in
  gs <- sinkx C f a eps ;;
  t <- for_range nits
         (fun t =>
            g <- h_update_g gs t eps rho2 ;;
            rescale_berg f g a b rho (Some rho2) (Some nits) (Some t)) t ;;
  g <- h_update_g gs t eps rho2 ;;
  fs <- sinky C g b eps ;;
  t <- for_range nits
         (fun t =>
            f <- h_update_f fs t eps rho ;;
            rescale_berg f g a b rho (Some rho2) (Some nits) (Some t)) t ;;
  f <- h_update_f fs t eps rho ;;
  t <- rescale_berg f g a b rho (Some rho2) None None ;;
  Some (vs Rplus f t, vs Rminus g t).

Definition g_sinkhorn_loop (f g : vec) (t : R) (a b : vec) (C : matrix)
  (eps rho : R) (rho2 : option R) : option (vec * vec * R) :=
  let rho2 := or_default rho2 rho in
  g <- sinkx C f a eps ;;
  g <- (p <- aprox_berg (neg (vs Rminus g t)) eps rho2 ;; Some (neg p)) ;;
  t <- rescale_berg f g a b rho (Some rho2) None None ;;
  f <- sinky C g b eps ;;
  f <- (p <- aprox_berg (neg (vs Rplus f t)) eps rho ;; Some (neg p)) ;;
  t <- rescale_berg f g a b rho (Some rho2) None None ;;
  Some (f, g, t).

End SinkhornLoops.

(** ** Declared parameters

    Each [def] line of the module: the parameter names in order, with
    the default written in the source, if any. *)

Definition signature := list (string * option string).

Definition sig_dual_score_ent : signature :=
  [("f", None); ("g", None); ("a", None); ("b", None); ("C", None);
   ("eps", None); ("rho", None); ("rho2", Some "None")]%string.

Definition sig_aprox_berg : signature :=
  [("x", None); ("eps", None); ("rho", None)]%string.

Definition sig_rescale_berg : signature :=
  [("f", None); ("g", None); ("a", None); ("b", None); ("rho", None);
   ("rho2", Some "None"); ("nits", Some "10"); ("init", Some "0.")]%string.

Definition sig_f_sinkhorn_loop : signature :=
  [("f", None); ("a", None); ("b", None); ("C", None); ("eps", None);
   ("rho", None); ("rho2", Some "None")]%string.

Definition sig_h_sinkhorn_loop : signature :=
  [("f", None); ("a", None); ("b", None); ("C", None); ("eps", None);
   ("rho", None); ("rho2", Some "None"); ("nits", Some "20")]%string.

Definition sig_g_sinkhorn_loop : signature :=
  [("f", None); ("g", None); ("t", None); ("a", None); ("b", None);
   ("C", None); ("eps", None); ("rho", None); ("rho2", Some "None")]%string.

(** The functions of the module that take [rho2]. *)
Definition rho2_signatures : list signature :=
  [sig_dual_score_ent; sig_rescale_berg; sig_f_sinkhorn_loop;
   sig_h_sinkhorn_loop; sig_g_sinkhorn_loop].

Definition has_default (p : string * option string) : bool :=
  match snd p with
  | Some _ => true
  | None => false
  end.

Definition defaulted (sg : signature) : list string :=
  map fst (filter has_default sg).

Definition required (sg : signature) : list string :=
  map fst (filter (fun p => negb (has_default p)) sg).

(** The reading of the specification under which only iteration counts
    have defaults: every defaulted parameter of these functions is
    [nits]. *)
Definition only_nits_defaulted : Prop :=
  forall sg, In sg rho2_signatures ->
  forall p, In p (defaulted sg) -> p = "nits"%string.

(** ** The same solver, one entry at a time

    These scalar functions are what the whole-array code computes at
    each index; [log_lambertw_pointwise] below proves it. *)

Definition pade1 (u : R) : R :=
  u * (3 + 6 * u + u ^ 2) / (3 + 9 * u + 5 * u ^ 2).

Definition seed_raw (x : R) : R :=
  if gtb x 1 then x
  else if ltb x (-2) then exp x * (1 - exp x)
  else pade1 (exp x).

Definition seed1 (x : R) : R :=
  if eqb (seed_raw x) 0 then 1e-6 else seed_raw x.

Definition residual1 (x w : R) : R :=
  (w * (ln (w + 1e-17) + w - x)) / (1 + w).

Definition curvature1 (w : R) : R := -1 / (w * (1 + w)).

Definition halley1 (x w : R) : R :=
  Rmax (w - residual1 x w / (1 - 0.5 * residual1 x w * curvature1 w)) 1e-17.

Definition log_lambertw1 (x : R) : R := Nat.iter 5 (halley1 x) (seed1 x).

Definition aprox_berg1 (eps rho x : R) : R :=
  rho - eps * log_lambertw1 (rho / eps + ln (rho / eps) - x / eps).

(** ** The invariant, written as sums over indices

    [dphi] is the derivative of the Berg penalty, [d2phi] its second
    derivative; [wsum a h f] is the sum over [i] of [a_i * h f_i]. *)

Definition dphi (s x : R) : R := 1 / (1 - x / s).

Definition d2phi (s x : R) : R := 1 / (s * (1 - x / s) ^ 2).

Definition wsum (a : vec) (h : R -> R) (f : vec) : R :=
  sum (map (fun p => fst p * h (snd p)) (combine a f)).

Definition grad1 (f g a b : vec) (rho rho2 t : R) : R :=
  wsum a (fun fi => dphi rho (- fi - t)) f
  - wsum b (fun gj => dphi rho2 (- gj + t)) g.

Definition hess1 (f g a b : vec) (rho rho2 t : R) : R :=
  - wsum a (fun fi => d2phi rho (- fi - t)) f
  - wsum b (fun gj => d2phi rho2 (- gj + t)) g.

Definition newton1 (f g a b : vec) (rho rho2 t : R) : R :=
  t - grad1 f g a b rho rho2 t / hess1 f g a b rho rho2 t.

(** The residual as the specification words it, without the [1e-17]
    inside the logarithm, and the update built on it. *)
Definition residual_spec (x w : R) : R := w * (ln w + w - x) / (1 + w).

Definition halley_spec (x w : R) : R :=
  Rmax (w - residual_spec x w
            / (1 - 0.5 * residual_spec x w * curvature1 w)) 1e-17.

(** The solver as the specification words it. *)
Definition log_lambertw_spec1 (x : R) : R :=
  Nat.iter 5 (halley_spec x) (seed1 x).

(** ** The entropy functions, one entry at a time *)

Definition phis_ent1 (s x : R) : R := - s * (exp (- x / s) - 1).

Definition phis_berg1 (s x : R) : R := - s * ln (1 - x / s).

(** Two 1-D shapes that numpy can combine. *)
Definition compatible (u v : vec) : bool :=
  (length u =? length v)%nat || (length u =? 1)%nat || (length v =? 1)%nat.

(** ** The helpers of [examples/paper_estimate_contraction_rate_berg.py] *)

Definition gauss (grid : vec) (mu sig : R) : vec :=
  map exp (sv Rmult (-0.5) (map (fun y => y ^ 2)
                              (vs Rdiv (vs Rminus grid mu) sig))).

Definition normalize (x : vec) : vec := vs Rdiv x (sum x).

(** [np.linspace(start, stop, num=n)]: a negative [n] raises. *)
Definition linspace (start stop : R) (n : Z) : option vec :=
  if (n <? 0)%Z then None
  else
    Some (match Z.to_nat n with
          | O => []
          | S O => [start]
          | S m =>
              map (fun i => start + INR i * ((stop - start) / INR m))
                  (seq 0 (S m))
          end).

(** [a[:k] = c] and [a[k:] = c] for an index [0 <= k]. *)
Definition fill_prefix (a : vec) (k : Z) (c : R) : vec :=
  map (fun _ => c) (firstn (Z.to_nat k) a) ++ skipn (Z.to_nat k) a.

Definition fill_suffix (a : vec) (k : Z) (c : R) : vec :=
  firstn (Z.to_nat k) a ++ map (fun _ => c) (skipn (Z.to_nat k) a).

Definition generate_measure (N : Z) : option (vec * vec * vec * vec) :=
  x <- linspace 0.2 0.4 N ;;
  let a := zeros_like x in
  let a := fill_prefix a (N / 2) 2 in
  let a := fill_suffix a (N / 2) 3 in
  y <- linspace 0.45 0.95 N ;;
  let a := normalize a in
  g12 <- vv Rplus (gauss y 0.6 0.03) (gauss y 0.7 0.03) ;;
  g123 <- vv Rplus g12 (gauss y 0.8 0.03) ;;
  let b := normalize g123 in
  Some (a, x, b, y).

(** ** The numpy primitives on small arrays *)

Example vv_equal_lengths : vv Rplus [1; 2] [3; 4] = Some [1 + 3; 2 + 4].
Proof. reflexivity. Qed.

Example vv_stretches_length_one :
  vv Rmult [2] [3; 4; 5] = Some [2 * 3; 2 * 4; 2 * 5].
Proof. reflexivity. Qed.

Example vv_shape_error : vv Rplus [1; 2] [3; 4; 5] = None.
Proof. reflexivity. Qed.

Example mm_outer_product :
  mm Rmult (column [1; 2]) (row [3; 4; 5])
  = Some [[1 * 3; 1 * 4; 1 * 5]; [2 * 3; 2 * 4; 2 * 5]].
Proof. reflexivity. Qed.

Example mask_get_selects :
  mask_get [1; 2; 3] [true; false; true] = Some [1; 3].
Proof. reflexivity. Qed.

Example mask_set_scatters :
  mask_set [0; 0; 0] [true; false; true] [5; 7] = Some [5; 0; 7].
Proof. reflexivity. Qed.

Example mask_set_too_few : mask_set [0; 0; 0] [true; false; true] [] = None.
Proof. reflexivity. Qed.

Example for_range_negative :
  for_range (-3) (fun t => Some (t + 1)) 0 = Some 0.
Proof. reflexivity. Qed.

Example grad_invariant_shape_error :
  grad_invariant 0 [1; 2] [0] [1; 2; 3] [1] 1 1 = None.
Proof. reflexivity. Qed.

Example init_lambertw_three_regimes :
  init_lambertw [2; -3; 0]
  = Some [2; exp (-3) * (1 - exp (-3)); pade1 (exp 0)].
Proof.
  assert (Hp : pade1 (exp 0) <> 0).
  { rewrite exp_0. unfold pade1. lra. }
  assert (He : exp (-3) * (1 - exp (-3)) <> 0).
  { pose proof (exp_pos (-3)).
    assert (exp (-3) < 1) by (rewrite <- exp_0; apply exp_increasing; lra).
    nra. }
  unfold init_lambertw, zeros_like, pade, gtb, geb, ltb, leb, eqb. simpl.
  repeat match goal with
         | |- context [Rlt_dec ?a ?b] => destruct (Rlt_dec a b); try lra
         | |- context [Rle_dec ?a ?b] => destruct (Rle_dec a b); try lra
         end; simpl.
  repeat match goal with
         | |- context [Rlt_dec ?a ?b] => destruct (Rlt_dec a b); try lra
         | |- context [Rle_dec ?a ?b] => destruct (Rle_dec a b); try lra
         | |- context [Req_dec_T ?a ?b] =>
             destruct (Req_dec_T a b); try lra; try contradiction
         end; simpl.
  reflexivity.
Qed.

(** ** Whole-array operations on arrays of one shape *)

Section SameShape.

Context {A : Type}.

Lemma zip_with_map (op : R -> R -> R) (f g : A -> R) (s : list A) :
  zip_with (fun x y => Some (op x y)) (map f s) (map g s)
  = Some (map (fun y => op (f y) (g y)) s).
Proof.
  induction s as [|y s IH]; simpl; [reflexivity|].
  rewrite IH. reflexivity.
Qed.

Lemma vv_map (op : R -> R -> R) (f g : A -> R) (s : list A) :
  vv op (map f s) (map g s) = Some (map (fun y => op (f y) (g y)) s).
Proof.
  destruct s as [|y1 [|y2 s]]; try reflexivity.
  unfold vv, broadcast.
  change (zip_with (fun x y => Some (op x y))
            (map f (y1 :: y2 :: s)) (map g (y1 :: y2 :: s))
          = Some (map (fun y => op (f y) (g y)) (y1 :: y2 :: s))).
  apply zip_with_map.
Qed.

Lemma mask_and_map (p q : A -> bool) (s : list A) :
  mask_and (map p s) (map q s) = Some (map (fun y => p y && q y) s).
Proof.
  unfold mask_and.
  induction s as [|y s IH]; simpl; [reflexivity|].
  rewrite IH. reflexivity.
Qed.

Lemma mask_get_map (k : A -> R) (p : A -> bool) (s : list A) :
  mask_get (map k s) (map p s) = Some (map k (filter p s)).
Proof.
  induction s as [|y s IH]; simpl; [reflexivity|].
  rewrite IH. simpl. destruct (p y); reflexivity.
Qed.

Lemma mask_fill_map (k : A -> R) (p : A -> bool) (c : R) (s : list A) :
  mask_fill (map k s) (map p s) c
  = Some (map (fun y => if p y then c else k y) s).
Proof.
  induction s as [|y s IH]; simpl; [reflexivity|].
  rewrite IH. reflexivity.
Qed.

Lemma mask_put_map (k h : A -> R) (p : A -> bool) (s : list A) :
  mask_put (map k s) (map p s) (map h (filter p s))
  = Some (map (fun y => if p y then h y else k y) s).
Proof.
  induction s as [|y s IH]; simpl; [reflexivity|].
  destruct (p y); simpl; rewrite IH; reflexivity.
Qed.

Lemma mask_set_map (k h : A -> R) (p : A -> bool) (s : list A) :
  mask_set (map k s) (map p s) (map h (filter p s))
  = Some (map (fun y => if p y then h y else k y) s).
Proof.
  unfold mask_set.
  destruct (map h (filter p s)) as [|v0 [|v1 vl]] eqn:E.
  - rewrite <- E. apply mask_put_map.
  - destruct (filter p s) as [|y0 [|y1 l]] eqn:F; simpl in E;
      try discriminate.
    injection E as <-.
    rewrite mask_fill_map. f_equal.
    apply map_ext_in. intros y Hy.
    destruct (p y) eqn:Py; [|reflexivity].
    assert (Hin : In y (filter p s)) by (apply filter_In; auto).
    rewrite F in Hin. destruct Hin as [->|[]]. reflexivity.
  - rewrite <- E. apply mask_put_map.
Qed.

End SameShape.

(** Rewrites a chain of whole-array operations over arrays that are all
    maps of one list into a single map. *)
Ltac fuse :=
  unfold sv, vs, neg, zeros_like;
  repeat (rewrite ?map_map; rewrite ?vv_map; simpl bind).

Lemma pade_map {A : Type} (e : A -> R) (s : list A) :
  pade (map e s) = Some (map (fun y => pade1 (e y)) s).
Proof.
  unfold pade. fuse. reflexivity.
Qed.

Lemma init_lambertw_map {A : Type} (i : A -> R) (s : list A) :
  init_lambertw (map i s) = Some (map (fun y => seed1 (i y)) s).
Proof.
  unfold init_lambertw, zeros_like.
  rewrite !map_map.
  rewrite mask_get_map. simpl bind.
  rewrite (mask_set_map (fun _ => 0) i). simpl bind.
  rewrite mask_get_map. simpl bind.
  fuse.
  rewrite (mask_set_map _ (fun y => exp (i y) * (1 - exp (i y)))).
  simpl bind.
  rewrite mask_and_map. simpl bind.
  rewrite mask_get_map. simpl bind.
  rewrite map_map, pade_map. simpl bind.
  rewrite (mask_set_map _ (fun y => pade1 (exp (i y)))). simpl bind.
  rewrite map_map. rewrite mask_fill_map. f_equal.
  apply map_ext. intros y. unfold seed1, seed_raw, gtb, geb, ltb, leb.
  destruct (Rlt_dec 1 (i y)), (Rlt_dec (i y) (-2)),
    (Rle_dec (i y) 1), (Rle_dec (-2) (i y));
    simpl; try reflexivity; lra.
Qed.

Lemma init_lambertw_pointwise (x : vec) :
  init_lambertw x = Some (map seed1 x).
Proof.
  rewrite <- (map_id x) at 1. apply init_lambertw_map.
Qed.

Lemma lw_body_map {A : Type} (i k : A -> R) (s : list A) :
  lw_body (map i s) (map k s) = Some (map (fun y => halley1 (i y) (k y)) s).
Proof.
  unfold lw_body, lw_a, lw_b. fuse. reflexivity.
Qed.

Lemma for_range_ext {S : Type} (n : Z) (body body' : S -> option S) (s : S) :
  (forall s', body s' = body' s') ->
  for_range n body s = for_range n body' s.
Proof.
  intros H. unfold for_range.
  induction (Z.to_nat n) as [|m IH]; simpl; [reflexivity|].
  rewrite IH.
  destruct (Nat.iter m (fun acc => s' <- acc ;; body' s') (Some s));
    simpl; auto.
Qed.

(** A loop whose body cannot fail is plain iteration. *)
Lemma for_range_total {S : Type} (n : Z) (step : S -> S) (s : S) :
  for_range n (fun s' => Some (step s')) s
  = Some (Nat.iter (Z.to_nat n) step s).
Proof.
  unfold for_range.
  induction (Z.to_nat n) as [|m IH]; simpl; [reflexivity|].
  rewrite IH. reflexivity.
Qed.

Lemma lw_loop_map {A : Type} (i k : A -> R) (s : list A) (n : Z) :
  for_range n (lw_body (map i s)) (map k s)
  = Some (map (fun y => Nat.iter (Z.to_nat n) (halley1 (i y)) (k y)) s).
Proof.
  unfold for_range.
  induction (Z.to_nat n) as [|m IH]; simpl; [reflexivity|].
  rewrite IH. simpl. apply lw_body_map.
Qed.

Lemma log_lambertw_map {A : Type} (i : A -> R) (s : list A) :
  log_lambertw (map i s) = Some (map (fun y => log_lambertw1 (i y)) s).
Proof.
  unfold log_lambertw. rewrite init_lambertw_map. simpl bind.
  apply (lw_loop_map i (fun y => seed1 (i y)) s 5).
Qed.

Lemma log_lambertw_pointwise (x : vec) :
  log_lambertw x = Some (map log_lambertw1 x).
Proof.
  rewrite <- (map_id x) at 1. apply log_lambertw_map.
Qed.

(** ** The proximal operator, one entry at a time *)

Lemma aprox_berg_map {A : Type} (i : A -> R) (s : list A) (eps rho : R) :
  aprox_berg (map i s) eps rho
  = Some (map (fun y => aprox_berg1 eps rho (i y)) s).
Proof.
  unfold aprox_berg. fuse.
  rewrite (log_lambertw_map
             (fun y => rho / eps + ln (rho / eps) - i y / eps) s).
  simpl bind. fuse. reflexivity.
Qed.

Lemma aprox_berg_pointwise (x : vec) (eps rho : R) :
  aprox_berg x eps rho = Some (map (aprox_berg1 eps rho) x).
Proof.
  rewrite <- (map_id x) at 1. apply aprox_berg_map.
Qed.

(** C2. For positive [eps] and [rho], [aprox_berg x eps rho] never fails
    and its entry [i] is [rho - eps * W(rho/eps + log(rho/eps) - x_i/eps)],
    [W] being the value [log_lambertw] computes for that single argument.
    The result has an entry exactly where [x] has one, and entry [i] is a
    function of entry [i] of [x] alone: two inputs that agree at [i] give
    results that agree at [i]. *)
Theorem aprox_berg_elementwise (x : vec) (eps rho : R) :
  0 < eps -> 0 < rho ->
  exists r : vec,
    aprox_berg x eps rho = Some r
    /\ (forall i : nat,
          nth_error r i
          = option_map
              (fun xi =>
                 rho - eps * log_lambertw1
                               (rho / eps + ln (rho / eps) - xi / eps))
              (nth_error x i))
    /\ (forall y : R, log_lambertw [y] = Some [log_lambertw1 y])
    /\ (forall (x' r' : vec) (i : nat),
          aprox_berg x' eps rho = Some r' ->
          nth_error x' i = nth_error x i ->
          nth_error r' i = nth_error r i).
Proof.
  intros _ _. exists (map (aprox_berg1 eps rho) x).
  split; [apply aprox_berg_pointwise|]. split; [|split].
  - intros i. rewrite nth_error_map. reflexivity.
  - intros y. apply (log_lambertw_pointwise [y]).
  - intros x' r' i Hr' Hi. rewrite aprox_berg_pointwise in Hr'.
    injection Hr' as <-. rewrite !nth_error_map, Hi. reflexivity.
Qed.

(** The theorem at [x = [0; 1]], [eps = 1], [rho = 2]. *)
Lemma aprox_berg_elementwise_witness :
  (0 < 1 /\ 0 < 2)
  /\ exists r : vec,
       aprox_berg [0; 1] 1 2 = Some r
       /\ (forall i : nat,
             nth_error r i
             = option_map
                 (fun xi =>
                    2 - 1 * log_lambertw1 (2 / 1 + ln (2 / 1) - xi / 1))
                 (nth_error [0; 1] i))
       /\ (forall y : R, log_lambertw [y] = Some [log_lambertw1 y])
       /\ (forall (x' r' : vec) (i : nat),
             aprox_berg x' 1 2 = Some r' ->
             nth_error x' i = nth_error [0; 1] i ->
             nth_error r' i = nth_error r i).
Proof.
  split; [lra|].
  apply (aprox_berg_elementwise [0; 1] 1 2); lra.
Defined.

(** ** Sums and arrays of equal length *)

Lemma fold_left_Rplus_acc (l : list R) (acc : R) :
  fold_left Rplus l acc = acc + fold_left Rplus l 0.
Proof.
  revert acc. induction l as [|x l IH]; intros acc; simpl; [lra|].
  rewrite (IH (acc + x)), (IH (0 + x)). lra.
Qed.

Lemma sum_nil : sum [] = 0.
Proof. reflexivity. Qed.

Lemma sum_cons (x : R) (l : list R) : sum (x :: l) = x + sum l.
Proof.
  unfold sum. simpl. rewrite fold_left_Rplus_acc. lra.
Qed.

Lemma zip_with_combine (op : R -> R -> R) (u v : vec) :
  length u = length v ->
  zip_with (fun x y => Some (op x y)) u v
  = Some (map (fun p => op (fst p) (snd p)) (combine u v)).
Proof.
  revert v. induction u as [|x u IH]; intros [|y v] H; simpl in *;
    try discriminate; [reflexivity|].
  rewrite IH by lia. reflexivity.
Qed.

Lemma vv_combine (op : R -> R -> R) (u v : vec) :
  length u = length v ->
  vv op u v = Some (map (fun p => op (fst p) (snd p)) (combine u v)).
Proof.
  intros H. destruct u as [|x1 [|x2 u]], v as [|y1 [|y2 v]];
    simpl in H; try discriminate; try reflexivity.
  unfold vv, broadcast. apply zip_with_combine. simpl. lia.
Qed.

Lemma vv_weighted (a f : vec) (h : R -> R) :
  length a = length f ->
  vv Rmult a (map h f) = Some (map (fun p => fst p * h (snd p)) (combine a f)).
Proof.
  intros H. rewrite vv_combine by (rewrite length_map; exact H).
  f_equal. clear H. revert f.
  induction a as [|x a IH]; intros [|y f]; simpl; try reflexivity.
  rewrite IH. reflexivity.
Qed.

(** ** [grad_invariant], [hess_invariant] and the Newton loop *)

Section Invariant.

Variables (f g a b : vec) (rho rho2 : R).
Hypothesis shape_a : length a = length f.
Hypothesis shape_b : length b = length g.

Lemma grad_invariant_sums (t : R) :
  grad_invariant t f g a b rho rho2 = Some (grad1 f g a b rho rho2 t).
Proof.
  unfold grad_invariant, grad_phis_berg, grad1, wsum, dphi.
  unfold sv, vs, neg. rewrite !map_map.
  rewrite !vv_weighted by assumption. reflexivity.
Qed.

Lemma hess_invariant_sums (t : R) :
  hess_invariant t f g a b rho rho2 = Some (hess1 f g a b rho rho2 t).
Proof.
  unfold hess_invariant, hess_phis_berg, hess1, wsum, d2phi.
  unfold sv, vs, neg. rewrite !map_map.
  rewrite !vv_weighted by assumption. reflexivity.
Qed.

Lemma newton_body_sums (t : R) :
  newton_body f g a b rho rho2 t = Some (newton1 f g a b rho rho2 t).
Proof.
  unfold newton_body.
  rewrite grad_invariant_sums, hess_invariant_sums. reflexivity.
Qed.

Lemma rescale_berg_newton (nits : option Z) (init : option R) :
  rescale_berg f g a b rho (Some rho2) nits init
  = Some (Nat.iter (Z.to_nat (or_default nits 10%Z))
            (newton1 f g a b rho rho2) (or_default init 0)).
Proof.
  unfold rescale_berg. simpl or_default at 1.
  rewrite (for_range_ext _ _ (fun t => Some (newton1 f g a b rho rho2 t)))
    by apply newton_body_sums.
  apply for_range_total.
Qed.

End Invariant.

(** ** [hess_invariant] is the derivative of [grad_invariant] in [t] *)

Lemma derivable_pt_lim_affine (p q t : R) :
  derivable_pt_lim (fun z => p + q * z) t q.
Proof.
  assert (H : derivable_pt_lim (fct_cte p + mult_real_fct q id)%F t
                (0 + q * 1)).
  { apply derivable_pt_lim_plus.
    - apply derivable_pt_lim_const.
    - apply derivable_pt_lim_scal, derivable_pt_lim_id. }
  replace (0 + q * 1) with q in H by lra.
  exact H.
Qed.

Lemma derivable_pt_lim_recip (u : R -> R) (t l : R) :
  derivable_pt_lim u t l -> u t <> 0 ->
  derivable_pt_lim (fun z => 1 / u z) t (- l / (u t) ^ 2).
Proof.
  intros Hu Hnz.
  assert (H : derivable_pt_lim (fct_cte 1 / u)%F t
                ((0 * u t - l * fct_cte 1 t) / (u t)²)).
  { apply derivable_pt_lim_div; auto. apply derivable_pt_lim_const. }
  replace ((0 * u t - l * fct_cte 1 t) / (u t)²) with (- l / u t ^ 2) in H
    by (unfold Rsqr, fct_cte; field; exact Hnz).
  exact H.
Qed.

Lemma unit_minus_ratio_nonzero (s x : R) :
  s <> 0 -> 1 - x / s <> 0 -> s - x <> 0.
Proof.
  intros Hs Hnz H. apply Hnz.
  replace x with s by lra. field. exact Hs.
Qed.

Lemma dphi_deriv_left (s fi t : R) :
  s <> 0 -> 1 - (- fi - t) / s <> 0 ->
  derivable_pt_lim (fun z => dphi s (- fi - z)) t (- d2phi s (- fi - t)).
Proof.
  intros Hs Hnz. unfold dphi, d2phi.
  replace (- (1 / (s * (1 - (- fi - t) / s) ^ 2)))
    with (- (1 / s) / (1 - (- fi - t) / s) ^ 2)
    by (field; split; [|apply unit_minus_ratio_nonzero]; auto).
  apply (derivable_pt_lim_recip (fun z => 1 - (- fi - z) / s)); auto.
  apply derivable_pt_lim_ext with (f := fun z => (1 + fi / s) + (1 / s) * z).
  - intros z. field. exact Hs.
  - apply derivable_pt_lim_affine.
Qed.

Lemma dphi_deriv_right (s gj t : R) :
  s <> 0 -> 1 - (- gj + t) / s <> 0 ->
  derivable_pt_lim (fun z => dphi s (- gj + z)) t (d2phi s (- gj + t)).
Proof.
  intros Hs Hnz. unfold dphi, d2phi.
  replace (1 / (s * (1 - (- gj + t) / s) ^ 2))
    with (- (- (1 / s)) / (1 - (- gj + t) / s) ^ 2)
    by (field; split; [|apply unit_minus_ratio_nonzero]; auto).
  apply (derivable_pt_lim_recip (fun z => 1 - (- gj + z) / s)); auto.
  apply derivable_pt_lim_ext with (f := fun z => (1 + gj / s) + (- (1 / s)) * z).
  - intros z. field. exact Hs.
  - apply derivable_pt_lim_affine.
Qed.

Lemma wsum_deriv (h h' : R -> R -> R) (t : R) (a f : vec) :
  Forall (fun fi => derivable_pt_lim (fun z => h z fi) t (h' t fi)) f ->
  derivable_pt_lim (fun z => wsum a (h z) f) t (wsum a (h' t) f).
Proof.
  intros Hf. revert a. unfold wsum.
  induction Hf as [|fi f Hfi Hf IH]; intros [|ai a]; simpl;
    try (apply (derivable_pt_lim_const 0)).
  rewrite sum_cons.
  apply derivable_pt_lim_ext
    with (f := fun z => ai * h z fi
                        + sum (map (fun p => fst p * h z (snd p))
                                 (combine a f))).
  - intros z. rewrite sum_cons. reflexivity.
  - apply (derivable_pt_lim_plus
             (mult_real_fct ai (fun z => h z fi))
             (fun z => sum (map (fun p => fst p * h z (snd p))
                              (combine a f)))).
    + apply derivable_pt_lim_scal, Hfi.
    + apply IH.
Qed.

Lemma hess1_is_derivative (f g a b : vec) (rho rho2 t : R) :
  rho <> 0 -> rho2 <> 0 ->
  Forall (fun fi => 1 - (- fi - t) / rho <> 0) f ->
  Forall (fun gj => 1 - (- gj + t) / rho2 <> 0) g ->
  derivable_pt_lim (grad1 f g a b rho rho2) t (hess1 f g a b rho rho2 t).
Proof.
  intros Hr Hr2 Hf Hg. unfold hess1.
  replace (- wsum a (fun fi => d2phi rho (- fi - t)) f)
    with (wsum a (fun fi => - d2phi rho (- fi - t)) f).
  - apply (derivable_pt_lim_minus
             (fun z => wsum a (fun fi => dphi rho (- fi - z)) f)
             (fun z => wsum b (fun gj => dphi rho2 (- gj + z)) g)).
    + apply (wsum_deriv (fun z fi => dphi rho (- fi - z))
               (fun z fi => - d2phi rho (- fi - z))).
      eapply Forall_impl; [|exact Hf]. intros fi Hfi.
      apply dphi_deriv_left; auto.
    + apply (wsum_deriv (fun z gj => dphi rho2 (- gj + z))
               (fun z gj => d2phi rho2 (- gj + z))).
      eapply Forall_impl; [|exact Hg]. intros gj Hgj.
      apply dphi_deriv_right; auto.
  - unfold wsum. generalize (combine a f) as l.
    induction l as [|p l IH]; simpl.
    + rewrite sum_nil. lra.
    + rewrite !sum_cons, IH. lra.
Qed.

(** C3. For arrays of matching lengths, [rescale_berg] returns the value
    reached after exactly [nits] updates [t <- t - grad / hess] from
    [init] ([nits] is 10 and [init] is 0 when omitted; a non-positive
    [nits] makes no update).  [grad] is [grad_invariant], the sum of
    [a_i * dphi(-f_i - t)] minus the sum of [b_j * dphi(-g_j + t)] with
    [dphi(x) = 1 / (1 - x / s)]; [hess] is [hess_invariant], which is the
    derivative of [grad] in [t] wherever no denominator vanishes.  The
    update is applied whatever the values of [grad] and [hess]: the
    iteration has no test, no step size and no early exit. *)
Theorem rescale_berg_fixed_newton (f g a b : vec) (rho rho2 : R)
  (nits : option Z) (init : option R) :
  length a = length f -> length b = length g ->
  rescale_berg f g a b rho (Some rho2) nits init
  = Some (Nat.iter (Z.to_nat (or_default nits 10%Z))
            (fun t => t - grad1 f g a b rho rho2 t / hess1 f g a b rho rho2 t)
            (or_default init 0))
  /\ (forall t : R,
        grad_invariant t f g a b rho rho2
        = Some (wsum a (fun fi => 1 / (1 - (- fi - t) / rho)) f
                - wsum b (fun gj => 1 / (1 - (- gj + t) / rho2)) g))
  /\ (forall t : R,
        hess_invariant t f g a b rho rho2 = Some (hess1 f g a b rho rho2 t))
  /\ (forall t : R,
        rho <> 0 -> rho2 <> 0 ->
        Forall (fun fi => 1 - (- fi - t) / rho <> 0) f ->
        Forall (fun gj => 1 - (- gj + t) / rho2 <> 0) g ->
        derivable_pt_lim (grad1 f g a b rho rho2) t
          (hess1 f g a b rho rho2 t)).
Proof.
  intros Ha Hb. repeat split.
  - apply rescale_berg_newton; assumption.
  - intros t. apply grad_invariant_sums; assumption.
  - intros t. apply hess_invariant_sums; assumption.
  - intros t. apply hess1_is_derivative.
Qed.

(** The theorem at [f = [0; 1]], [g = [0]], [a = [1; 2]], [b = [3]],
    [rho = 1], [rho2 = 2], with [nits] and [init] omitted. *)
Lemma rescale_berg_fixed_newton_witness :
  (length [1; 2] = length [0; 1] /\ length [3] = length [0])
  /\ rescale_berg [0; 1] [0] [1; 2] [3] 1 (Some 2) None None
     = Some (Nat.iter 10
               (fun t => t - grad1 [0; 1] [0] [1; 2] [3] 1 2 t
                             / hess1 [0; 1] [0] [1; 2] [3] 1 2 t) 0).
Proof.
  split; [split; reflexivity|].
  exact (proj1 (rescale_berg_fixed_newton [0; 1] [0] [1; 2] [3] 1 2
                  None None eq_refl eq_refl)).
Defined.

(** ** Translation of the potentials *)

Lemma grad_phis_shift_left (f : vec) (s t rho : R) :
  grad_phis_berg (vs Rminus (neg (vs Rplus f s)) t) rho
  = grad_phis_berg (vs Rminus (neg f) (t + s)) rho.
Proof.
  unfold grad_phis_berg, sv, vs, neg. rewrite !map_map.
  apply map_ext. intros x. do 3 f_equal. lra.
Qed.

Lemma grad_phis_shift_right (g : vec) (s t rho2 : R) :
  grad_phis_berg (vs Rplus (neg (vs Rminus g s)) t) rho2
  = grad_phis_berg (vs Rplus (neg g) (t + s)) rho2.
Proof.
  unfold grad_phis_berg, sv, vs, neg. rewrite !map_map.
  apply map_ext. intros x. do 3 f_equal. lra.
Qed.

(** C7. Shifting the potentials by [s] ([f + s], [g - s]) shifts the
    argument of [grad_invariant] by [s]:
    [grad_invariant(t, f + s, g - s, ...) = grad_invariant(t + s, f, g, ...)],
    shape errors included; so [t] is stationary for the shifted pair
    exactly when [t + s] is stationary for the original pair. *)
Theorem grad_invariant_translation (s t : R) (f g a b : vec) (rho rho2 : R) :
  grad_invariant t (vs Rplus f s) (vs Rminus g s) a b rho rho2
  = grad_invariant (t + s) f g a b rho rho2.
Proof.
  unfold grad_invariant.
  rewrite grad_phis_shift_left, grad_phis_shift_right. reflexivity.
Qed.

(** ** The three Sinkhorn loops *)

Section Loops.

Variable sinkx : matrix -> vec -> vec -> R -> option vec.
Variable sinky : matrix -> vec -> vec -> R -> option vec.

Lemma h_update_g_pointwise (gs : vec) (t eps rho2 : R) :
  h_update_g gs t eps rho2
  = Some (vs Rplus (neg (map (aprox_berg1 eps rho2) (neg (vs Rminus gs t)))) t).
Proof.
  unfold h_update_g. rewrite aprox_berg_pointwise. reflexivity.
Qed.

Lemma h_update_f_pointwise (fs : vec) (t eps rho : R) :
  h_update_f fs t eps rho
  = Some (vs Rminus (neg (map (aprox_berg1 eps rho) (neg (vs Rplus fs t)))) t).
Proof.
  unfold h_update_f. rewrite aprox_berg_pointwise. reflexivity.
Qed.

(** C4. [f_sinkhorn_loop] makes one alternating update and nothing else:
    [g = -aprox_berg(-sinkx(C, f, a, eps), eps, rho2)], then
    [f' = -aprox_berg(-sinky(C, g, b, eps), eps, rho)] from that new [g],
    and the pair [(f', g)] is returned as computed, with no shift
    applied.  It fails only if [sinkx] or [sinky] does. *)
Theorem f_sinkhorn_loop_one_update (f a b : vec) (C : matrix)
  (eps rho rho2 : R) :
  f_sinkhorn_loop sinkx sinky f a b C eps rho (Some rho2)
  = (sx <- sinkx C f a eps ;;
     let g := neg (map (aprox_berg1 eps rho2) (neg sx)) in
     sy <- sinky C g b eps ;;
     let f' := neg (map (aprox_berg1 eps rho) (neg sy)) in
     Some (f', g))
  /\ (forall x e r, aprox_berg x e r = Some (map (aprox_berg1 e r) x)).
Proof.
  split; [|intros; apply aprox_berg_pointwise].
  unfold f_sinkhorn_loop. simpl or_default.
  destruct (sinkx C f a eps) as [sx|]; simpl; [|reflexivity].
  rewrite aprox_berg_pointwise. simpl.
  destruct (sinky C _ b eps) as [sy|]; simpl; [|reflexivity].
  rewrite aprox_berg_pointwise. reflexivity.
Qed.

(** C5. [h_sinkhorn_loop] starts from [t = 0] and runs [nits] passes (20
    when omitted) of: shifted proximal update of [g], then
    [t = rescale_berg(f, g, ..., nits, init = t)], with [f] fixed; it
    recomputes [g] from the last [t]; it runs [nits] passes of the same
    for [f] with that [g] fixed and recomputes [f]; it recomputes
    [t = rescale_berg(f, g, a, b, rho, rho2)] once more and returns
    [(f + t, g - t)]. *)
Theorem h_sinkhorn_loop_structure (f a b : vec) (C : matrix)
  (eps rho rho2 : R) (nits : option Z) :
  h_sinkhorn_loop sinkx sinky f a b C eps rho (Some rho2) nits
  = (let n := or_default nits 20%Z in
     gs <- sinkx C f a eps ;;
     let prox_g := fun t =>
       vs Rplus (neg (map (aprox_berg1 eps rho2) (neg (vs Rminus gs t)))) t in
     t1 <- for_range n
             (fun t => rescale_berg f (prox_g t) a b rho (Some rho2)
                         (Some n) (Some t)) 0 ;;
     let g := prox_g t1 in
     fs <- sinky C g b eps ;;
     let prox_f := fun t =>
       vs Rminus (neg (map (aprox_berg1 eps rho) (neg (vs Rplus fs t)))) t in
     t2 <- for_range n
             (fun t => rescale_berg (prox_f t) g a b rho (Some rho2)
                         (Some n) (Some t)) t1 ;;
     let f' := prox_f t2 in
     t3 <- rescale_berg f' g a b rho (Some rho2) None None ;;
     Some (vs Rplus f' t3, vs Rminus g t3)).
Proof.
  unfold h_sinkhorn_loop. simpl or_default. cbv zeta.
  destruct (sinkx C f a eps) as [gs|]; simpl bind; [|reflexivity].
  rewrite (for_range_ext _ _
             (fun t => rescale_berg f
                         (vs Rplus
                            (neg (map (aprox_berg1 eps rho2)
                                    (neg (vs Rminus gs t)))) t)
                         a b rho (Some rho2)
                         (Some (or_default nits 20%Z)) (Some t)))
    by (intros t; rewrite h_update_g_pointwise; reflexivity).
  destruct (for_range _ _ 0) as [t1|]; simpl bind; [|reflexivity].
  rewrite h_update_g_pointwise. simpl bind.
  destruct (sinky C _ b eps) as [fs|]; simpl bind; [|reflexivity].
  rewrite (for_range_ext _ _
             (fun t => rescale_berg
                         (vs Rminus
                            (neg (map (aprox_berg1 eps rho)
                                    (neg (vs Rplus fs t)))) t)
                         (vs Rplus
                            (neg (map (aprox_berg1 eps rho2)
                                    (neg (vs Rminus gs t1)))) t1)
                         a b rho (Some rho2)
                         (Some (or_default nits 20%Z)) (Some t)))
    by (intros t; rewrite h_update_f_pointwise; reflexivity).
  destruct (for_range _ _ t1) as [t2|]; simpl bind; [|reflexivity].
  rewrite h_update_f_pointwise. reflexivity.
Qed.

(** C6. [g_sinkhorn_loop] takes the shift [t] next to the potentials and
    returns the triple [(f, g, t)], where the F and H loops take no
    shift and return a pair.  It computes
    [g = -aprox_berg(-(sinkx(C, f, a, eps) - t), eps, rho2)] with the
    incoming [t], then [t = rescale_berg(f, g, ...)], then
    [f = -aprox_berg(-(sinky(C, g, b, eps) + t), eps, rho)] with that new
    [t], then [t = rescale_berg(f, g, ...)] again: two rescale passes,
    the second of which is the [t] handed back. *)
Theorem g_sinkhorn_loop_structure (f g : vec) (t : R) (a b : vec)
  (C : matrix) (eps rho rho2 : R) :
  g_sinkhorn_loop sinkx sinky f g t a b C eps rho (Some rho2)
  = (sx <- sinkx C f a eps ;;
     let g' := neg (map (aprox_berg1 eps rho2) (neg (vs Rminus sx t))) in
     t1 <- rescale_berg f g' a b rho (Some rho2) None None ;;
     sy <- sinky C g' b eps ;;
     let f' := neg (map (aprox_berg1 eps rho) (neg (vs Rplus sy t1))) in
     t2 <- rescale_berg f' g' a b rho (Some rho2) None None ;;
     Some (f', g', t2))
  /\ existsb (String.eqb "t") (map fst sig_g_sinkhorn_loop) = true
  /\ existsb (String.eqb "t") (map fst sig_f_sinkhorn_loop) = false
  /\ existsb (String.eqb "t") (map fst sig_h_sinkhorn_loop) = false.
Proof.
  split; [|repeat split].
  unfold g_sinkhorn_loop. simpl or_default.
  destruct (sinkx C f a eps) as [sx|]; simpl bind; [|reflexivity].
  rewrite aprox_berg_pointwise. simpl bind.
  destruct (rescale_berg f _ a b rho (Some rho2) None None) as [t1|];
    simpl bind; [|reflexivity].
  destruct (sinky C _ b eps) as [sy|]; simpl bind; [|reflexivity].
  rewrite aprox_berg_pointwise. reflexivity.
Qed.

(** C8. The result of [g_sinkhorn_loop] does not depend on its [g]
    argument: with every other argument the same, two calls return the
    same triple (or fail alike) whatever [g1] and [g2] are. *)
Theorem g_sinkhorn_loop_ignores_g (g1 g2 f : vec) (t : R) (a b : vec)
  (C : matrix) (eps rho : R) (rho2 : option R) :
  g_sinkhorn_loop sinkx sinky f g1 t a b C eps rho rho2
  = g_sinkhorn_loop sinkx sinky f g2 t a b C eps rho rho2.
Proof.
  reflexivity.
Qed.

End Loops.

(** ** Defaults *)

Lemma newton1_example_rho2_2 :
  newton1 [1] [0] [1] [1] 2 2 0 = - 6 / 13.
Proof.
  unfold newton1, grad1, hess1, wsum, dphi, d2phi, sum. simpl. field.
Qed.

Lemma newton1_example_rho2_1 :
  newton1 [1] [0] [1] [1] 2 1 0 = - 3 / 11.
Proof.
  unfold newton1, grad1, hess1, wsum, dphi, d2phi, sum. simpl. field.
Qed.

(** C9, as stated, fails: [rho2] is declared [rho2=None] and a call that
    omits it goes on with [rho] in its place.  With [f = [1]], [g = [0]],
    [a = b = [1]], [rho = 2] and one Newton pass from 0, omitting [rho2]
    gives [-6/13], the value for [rho2 = 2], and not the [-3/11] of
    [rho2 = 1]; and [rho2] and [init] are defaulted parameters that are
    not [nits]. *)
Lemma rho2_is_defaulted :
  rescale_berg [1] [0] [1] [1] 2 None (Some 1%Z) (Some 0) = Some (- 6 / 13)
  /\ rescale_berg [1] [0] [1] [1] 2 (Some 2) (Some 1%Z) (Some 0)
     = Some (- 6 / 13)
  /\ rescale_berg [1] [0] [1] [1] 2 (Some 1) (Some 1%Z) (Some 0)
     = Some (- 3 / 11)
  /\ - 6 / 13 <> - 3 / 11
  /\ ~ only_nits_defaulted.
Proof.
  assert (E2 : rescale_berg [1] [0] [1] [1] 2 (Some 2) (Some 1%Z) (Some 0)
               = Some (- 6 / 13)).
  { rewrite rescale_berg_newton by reflexivity.
    simpl. rewrite newton1_example_rho2_2. reflexivity. }
  repeat split.
  - exact E2.
  - exact E2.
  - rewrite rescale_berg_newton by reflexivity.
    simpl. rewrite newton1_example_rho2_1. reflexivity.
  - lra.
  - intros H.
    assert (E : "rho2"%string = "nits"%string).
    { apply (H sig_rescale_berg); simpl; auto. }
    discriminate E.
Qed.

(** C9, amended.  In [dual_score_ent], [rescale_berg] and the three
    loops [rho2] is optional, and omitting it means [rho2 = rho];
    omitting [nits] means 10 in [rescale_berg] and 20 in
    [h_sinkhorn_loop]; omitting [init] means 0.  Nothing else has a
    default: [eps] and [rho] are required wherever they occur. *)
Theorem defaults_of_the_core
  (sinkx sinky : matrix -> vec -> vec -> R -> option vec)
  (f g a b : vec) (C : matrix) (t eps rho : R)
  (rho2 : option R) (nits : option Z) (init : option R) :
  dual_score_ent f g a b C eps rho None
  = dual_score_ent f g a b C eps rho (Some rho)
  /\ rescale_berg f g a b rho None nits init
     = rescale_berg f g a b rho (Some rho) nits init
  /\ f_sinkhorn_loop sinkx sinky f a b C eps rho None
     = f_sinkhorn_loop sinkx sinky f a b C eps rho (Some rho)
  /\ h_sinkhorn_loop sinkx sinky f a b C eps rho None nits
     = h_sinkhorn_loop sinkx sinky f a b C eps rho (Some rho) nits
  /\ g_sinkhorn_loop sinkx sinky f g t a b C eps rho None
     = g_sinkhorn_loop sinkx sinky f g t a b C eps rho (Some rho)
  /\ rescale_berg f g a b rho rho2 None init
     = rescale_berg f g a b rho rho2 (Some 10%Z) init
  /\ rescale_berg f g a b rho rho2 nits None
     = rescale_berg f g a b rho rho2 nits (Some 0)
  /\ h_sinkhorn_loop sinkx sinky f a b C eps rho rho2 None
     = h_sinkhorn_loop sinkx sinky f a b C eps rho rho2 (Some 20%Z)
  /\ map defaulted rho2_signatures
     = [["rho2"]; ["rho2"; "nits"; "init"]; ["rho2"]; ["rho2"; "nits"];
        ["rho2"]]%string
  /\ map required rho2_signatures
     = [["f"; "g"; "a"; "b"; "C"; "eps"; "rho"];
        ["f"; "g"; "a"; "b"; "rho"];
        ["f"; "a"; "b"; "C"; "eps"; "rho"];
        ["f"; "a"; "b"; "C"; "eps"; "rho"];
        ["f"; "g"; "t"; "a"; "b"; "C"; "eps"; "rho"]]%string
  /\ defaulted sig_aprox_berg = [].
Proof.
  repeat split.
Qed.

(** ** The Halley update in closed form, and bounds on it *)

Lemma ln_upper (r : R) : 0 < r -> ln r <= r - 1.
Proof.
  intros Hr. destruct (Req_dec r 1) as [->|Hne].
  - rewrite ln_1. lra.
  - pose proof (exp_ineq1 (ln r) (ln_neq_0 r Hne Hr)) as H.
    rewrite exp_ln in H by exact Hr. lra.
Qed.

Lemma ln_lower (r : R) : 0 < r -> 1 - / r <= ln r.
Proof.
  intros Hr.
  pose proof (ln_upper (/ r) (Rinv_0_lt_compat r Hr)) as H.
  rewrite ln_Rinv in H by exact Hr. lra.
Qed.

Lemma ln_quotient (u v : R) : 0 < u -> 0 < v -> ln (u / v) = ln u - ln v.
Proof.
  intros Hu Hv. unfold Rdiv.
  rewrite ln_mult by (auto using Rinv_0_lt_compat).
  rewrite ln_Rinv by exact Hv. lra.
Qed.

Lemma ln_gap_bounds (u v : R) :
  0 < u -> 0 < v -> 1 - v / u <= ln u - ln v <= u / v - 1.
Proof.
  intros Hu Hv. rewrite <- ln_quotient by assumption.
  assert (Hq : 0 < u / v) by (apply Rdiv_lt_0_compat; assumption).
  split.
  - replace (v / u) with (/ (u / v)) by (field; lra).
    apply ln_lower, Hq.
  - apply ln_upper, Hq.
Qed.

Lemma div_le_upper (n d b : R) : 0 < d -> n <= b * d -> n / d <= b.
Proof.
  intros Hd H. replace b with (b * d / d) by (field; lra).
  unfold Rdiv. apply Rmult_le_compat_r; [|exact H].
  left. apply Rinv_0_lt_compat, Hd.
Qed.

Lemma div_le_lower (n d b : R) : 0 < d -> b * d <= n -> b <= n / d.
Proof.
  intros Hd H. replace b with (b * d / d) by (field; lra).
  unfold Rdiv. apply Rmult_le_compat_r; [|exact H].
  left. apply Rinv_0_lt_compat, Hd.
Qed.

(** With [L] the bracket of the residual, one update before the floor
    is [w (2 (1 + w)^2 - L (1 + 2 w)) / (2 (1 + w)^2 + L)]. *)
Lemma halley_closed_form (L w : R) :
  0 < w -> 0 < 2 * (1 + w) ^ 2 + L ->
  w - (w * L / (1 + w))
      / (1 - 0.5 * (w * L / (1 + w)) * (-1 / (w * (1 + w))))
  = w * (2 * (1 + w) ^ 2 - L * (1 + 2 * w)) / (2 * (1 + w) ^ 2 + L).
Proof.
  intros Hw HD. replace 0.5 with (/ 2) by lra. field. repeat split; nra.
Qed.

Lemma halley_value_pinned (L w : R) :
  1e-17 <= w <= 1.2e-17 -> 0.4 <= L ->
  w * (2 * (1 + w) ^ 2 - L * (1 + 2 * w)) / (2 * (1 + w) ^ 2 + L) <= 1e-17.
Proof.
  intros Hw HL.
  assert (HD : 0 < 2 * (1 + w) ^ 2 + L) by nra.
  apply div_le_upper; [exact HD|]. nra.
Qed.

Lemma halley_value_kept (L w : R) :
  0.95 * 1.2e-17 <= w <= 1.05 * 1.2e-17 ->
  (1 - 1.2e-17 / w) + w <= L <= (w / 1.2e-17 - 1) + w ->
  0.95 * 1.2e-17
  <= w * (2 * (1 + w) ^ 2 - L * (1 + 2 * w)) / (2 * (1 + w) ^ 2 + L)
  <= 1.05 * 1.2e-17.
Proof.
  intros Hw HL.
  assert (Hw0 : 0 < w) by lra.
  set (r := w / 1.2e-17) in *.
  assert (Hr : 0.95 <= r <= 1.05) by (unfold r; lra).
  assert (Hwr : w = r * 1.2e-17) by (unfold r; lra).
  assert (Hinv : 1.2e-17 / w = / r) by (unfold r; field; lra).
  rewrite Hinv in HL.
  assert (Hir : / r * r = 1) by (apply Rinv_l; lra).
  assert (Hirb : 0.95 <= / r <= 1.06) by nra.
  assert (HD : 0 < 2 * (1 + w) ^ 2 + L) by nra.
  split.
  - apply div_le_lower; [exact HD|]. rewrite Hwr. nra.
  - apply div_le_upper; [exact HD|]. rewrite Hwr. nra.
Qed.

(** ** The input [ln 1.2e-17]: the program sits on the floor *)

Lemma halley1_pinned (w : R) :
  1e-17 <= w <= 1.2e-17 -> halley1 (ln 1.2e-17) w = 1e-17.
Proof.
  intros Hw. unfold halley1, residual1, curvature1.
  pose proof (ln_gap_bounds (w + 1e-17) 1.2e-17 ltac:(lra) ltac:(lra))
    as [Hlo _].
  assert (Hq : 1.2e-17 / (w + 1e-17) <= 0.6).
  { apply div_le_upper; lra. }
  set (L := ln (w + 1e-17) + w - ln 1.2e-17) in *.
  assert (HL : 0.4 <= L) by (unfold L; lra).
  rewrite halley_closed_form by nra.
  apply Rmax_right, halley_value_pinned; assumption.
Qed.

Lemma exp_minus_2_lower : / 9 <= exp (- 2).
Proof.
  assert (H2 : exp 2 <= 9).
  { replace 2 with (1 + 1) by lra. rewrite exp_plus.
    pose proof exp_le_3. pose proof (exp_pos 1). nra. }
  replace (-2) with (Ropp 2) by lra.
  rewrite exp_Ropp. apply Rinv_le_contravar; [apply exp_pos|exact H2].
Qed.

Lemma seed1_at_ln_small :
  seed1 (ln 1.2e-17) = 1.2e-17 * (1 - 1.2e-17).
Proof.
  assert (Hlo : ln 1.2e-17 < - 2).
  { rewrite <- (ln_exp (- 2)). apply ln_increasing; [lra|].
    pose proof exp_minus_2_lower. lra. }
  unfold seed1, seed_raw, gtb, ltb, eqb.
  destruct (Rlt_dec 1 (ln 1.2e-17)) as [H|_]; [lra|].
  destruct (Rlt_dec (ln 1.2e-17) (- 2)) as [_|H]; [|lra].
  rewrite exp_ln by lra.
  destruct (Req_dec_T (1.2e-17 * (1 - 1.2e-17)) 0) as [H|_]; [lra|].
  reflexivity.
Qed.

Lemma iter_absorbed {T : Type} (step : T -> T) (w0 w : T) (n : nat) :
  step w0 = w -> step w = w -> Nat.iter (S n) step w0 = w.
Proof.
  intros H0 H. induction n as [|n IH]; [exact H0|].
  change (step (Nat.iter (S n) step w0) = w). rewrite IH. exact H.
Qed.

Lemma log_lambertw1_at_ln_small : log_lambertw1 (ln 1.2e-17) = 1e-17.
Proof.
  unfold log_lambertw1. rewrite seed1_at_ln_small.
  apply iter_absorbed; apply halley1_pinned; lra.
Qed.

(** ** The same input under the residual of the specification *)

Lemma halley_spec_kept (w : R) :
  0.95 * 1.2e-17 <= w <= 1.05 * 1.2e-17 ->
  0.95 * 1.2e-17 <= halley_spec (ln 1.2e-17) w <= 1.05 * 1.2e-17.
Proof.
  intros Hw. unfold halley_spec, residual_spec, curvature1.
  pose proof (ln_gap_bounds w 1.2e-17 ltac:(lra) ltac:(lra)) as Hl.
  set (L := ln w + w - ln 1.2e-17) in *.
  assert (HL : (1 - 1.2e-17 / w) + w <= L <= (w / 1.2e-17 - 1) + w)
    by (unfold L; lra).
  pose proof (halley_value_kept L w Hw HL) as Hv.
  assert (Hq : 1.2e-17 / w <= 1.06) by (apply div_le_upper; lra).
  rewrite halley_closed_form by nra.
  rewrite Rmax_left by lra. exact Hv.
Qed.

Lemma halley_spec_iter_kept (n : nat) (w0 : R) :
  0.95 * 1.2e-17 <= w0 <= 1.05 * 1.2e-17 ->
  0.95 * 1.2e-17 <= Nat.iter n (halley_spec (ln 1.2e-17)) w0
  <= 1.05 * 1.2e-17.
Proof.
  intros H0. induction n as [|n IH]; [exact H0|].
  change (Nat.iter (S n) (halley_spec (ln 1.2e-17)) w0)
    with (halley_spec (ln 1.2e-17)
            (Nat.iter n (halley_spec (ln 1.2e-17)) w0)).
  apply halley_spec_kept, IH.
Qed.

Lemma log_lambertw_spec1_at_ln_small :
  0.95 * 1.2e-17 <= log_lambertw_spec1 (ln 1.2e-17) <= 1.05 * 1.2e-17.
Proof.
  unfold log_lambertw_spec1. rewrite seed1_at_ln_small.
  apply halley_spec_iter_kept. lra.
Qed.

(** ** The Lambert solver: floor, seed regimes, and the two claims *)

Lemma halley1_floor (x w : R) : 1e-17 <= halley1 x w.
Proof. unfold halley1. apply Rmax_r. Qed.

Lemma log_lambertw1_floor (x : R) : 1e-17 <= log_lambertw1 x.
Proof.
  unfold log_lambertw1.
  change (Nat.iter 5 (halley1 x) (seed1 x))
    with (halley1 x (Nat.iter 4 (halley1 x) (seed1 x))).
  apply halley1_floor.
Qed.

Lemma seed_raw_high (x : R) : 1 < x -> seed_raw x = x.
Proof.
  intros H. unfold seed_raw, gtb, ltb.
  destruct (Rlt_dec 1 x); [reflexivity|contradiction].
Qed.

Lemma seed_raw_low (x : R) : x < - 2 -> seed_raw x = exp x * (1 - exp x).
Proof.
  intros H. unfold seed_raw, gtb, ltb.
  destruct (Rlt_dec 1 x); [lra|].
  destruct (Rlt_dec x (- 2)); [reflexivity|contradiction].
Qed.

Lemma seed_raw_middle (x : R) :
  - 2 <= x <= 1 ->
  seed_raw x
  = exp x * (3 + 6 * exp x + exp x ^ 2) / (3 + 9 * exp x + 5 * exp x ^ 2).
Proof.
  intros H. unfold seed_raw, gtb, ltb, pade1.
  destruct (Rlt_dec 1 x); [lra|].
  destruct (Rlt_dec x (- 2)); [lra|reflexivity].
Qed.

(** In exact arithmetic the seed is positive, so the replacement of a
    zero seed by [1e-6] only ever acts on a float that underflowed. *)
Lemma seed_raw_positive (x : R) : 0 < seed_raw x.
Proof.
  pose proof (exp_pos x) as He.
  destruct (Rlt_dec 1 x) as [Hhi|Hhi].
  - rewrite seed_raw_high by exact Hhi. lra.
  - destruct (Rlt_dec x (- 2)) as [Hlo|Hlo].
    + rewrite seed_raw_low by exact Hlo.
      assert (exp x < 1).
      { rewrite <- exp_0. apply exp_increasing. lra. }
      nra.
    + rewrite seed_raw_middle by lra.
      apply Rdiv_lt_0_compat; nra.
Qed.

(** C1, as stated, fails.  At [x = ln 1.2e-17] (about -38.96, in the
    regime [x < -2]) the program returns exactly the floor [1e-17]: its
    residual takes [log(w + 1e-17)], which stays positive along the
    iteration and drives every update below the floor.  The five
    updates with the stated residual [w (log w + w - x) / (1 + w)] stay
    within 5% of [1.2e-17] and end at [1.14e-17] or more. *)
Lemma log_lambertw_not_stated_residual :
  log_lambertw [ln 1.2e-17] = Some [1e-17]
  /\ 1.14e-17 <= log_lambertw_spec1 (ln 1.2e-17)
  /\ log_lambertw [ln 1.2e-17] <> Some [log_lambertw_spec1 (ln 1.2e-17)].
Proof.
  assert (E : log_lambertw [ln 1.2e-17] = Some [1e-17]).
  { rewrite log_lambertw_pointwise. simpl map.
    rewrite log_lambertw1_at_ln_small. reflexivity. }
  pose proof log_lambertw_spec1_at_ln_small as [Hlo _].
  repeat split.
  - exact E.
  - lra.
  - rewrite E. intros H. injection H as H. lra.
Qed.

(** C1, amended.  [log_lambertw x] never fails and computes, entry by
    entry: the seed [z0 = x] where [x > 1], [z0 = e^x (1 - e^x)] where
    [x < -2], [z0 = p(e^x)] otherwise with
    [p(u) = u (3 + 6u + u^2) / (3 + 9u + 5u^2)], a seed equal to zero
    being replaced by [1e-6]; then exactly five updates
    [w <- max(w - a / (1 - 0.5 a b), 1e-17)] with residual
    [a = w (log(w + 1e-17) + w - x) / (1 + w)] and curvature
    [b = -1 / (w (1 + w))], with no test between them.  Every entry of
    the result is at least [1e-17]. *)
Theorem log_lambertw_seed_halley_floor (x : vec) :
  log_lambertw x
  = Some (map (fun xi => Nat.iter 5 (halley1 xi) (seed1 xi)) x)
  /\ Forall (fun w => 1e-17 <= w)
       (map (fun xi => Nat.iter 5 (halley1 xi) (seed1 xi)) x)
  /\ (forall xi : R,
        seed1 xi
        = let z0 :=
            if Rlt_dec 1 xi then xi
            else if Rlt_dec xi (- 2) then exp xi * (1 - exp xi)
            else exp xi * (3 + 6 * exp xi + exp xi ^ 2)
                 / (3 + 9 * exp xi + 5 * exp xi ^ 2) in
          if Req_dec_T z0 0 then 1e-6 else z0)
  /\ (forall xi w : R,
        halley1 xi w
        = let a := w * (ln (w + 1e-17) + w - xi) / (1 + w) in
          let b := -1 / (w * (1 + w)) in
          Rmax (w - a / (1 - 0.5 * a * b)) 1e-17).
Proof.
  split; [apply log_lambertw_pointwise|]. split; [|split].
  - apply Forall_map, Forall_forall. intros xi _.
    apply log_lambertw1_floor.
  - intros xi. unfold seed1, seed_raw, gtb, ltb, eqb, pade1.
    destruct (Rlt_dec 1 xi), (Rlt_dec xi (- 2)); cbv zeta;
      match goal with
      | |- context [Req_dec_T ?z 0] => destruct (Req_dec_T z 0)
      end; reflexivity.
  - intros xi w. reflexivity.
Qed.

(** * Further properties of the module *)

(** ** The seed of the Lambert solver *)

Lemma seed1_is_seed_raw (x : R) : seed1 x = seed_raw x.
Proof.
  unfold seed1, eqb. pose proof (seed_raw_positive x).
  destruct (Req_dec_T (seed_raw x) 0); [lra|reflexivity].
Qed.

(** X1. The seed computed by [init_lambertw] is strictly positive in all
    three regimes, so in exact arithmetic the replacement of a zero seed
    by [1e-6] changes nothing: the result is the piecewise seed itself,
    one entry per entry of [x]. *)
Theorem init_lambertw_positive (x : vec) :
  init_lambertw x = Some (map seed_raw x)
  /\ Forall (fun z => 0 < z) (map seed_raw x).
Proof.
  split.
  - rewrite init_lambertw_pointwise. f_equal. apply map_ext.
    apply seed1_is_seed_raw.
  - apply Forall_map, Forall_forall. intros xi _. apply seed_raw_positive.
Qed.

(** ** What the Halley update converges to *)




(** ** Inputs at or below [ln 1.2e-17] *)

Lemma halley_value_below_floor (L w : R) :
  0 < w <= 1.2e-17 ->
  (1 - 1.2e-17 / (w + 1e-17)) + w <= L ->
  0 < 2 * (1 + w) ^ 2 + L
  /\ w * (2 * (1 + w) ^ 2 - L * (1 + 2 * w)) / (2 * (1 + w) ^ 2 + L)
     <= 1e-17.
Proof.
  intros Hw HL.
  set (q := 1.2e-17 / (w + 1e-17)) in *.
  assert (Hq : q * (w + 1e-17) = 1.2e-17) by (unfold q; field; lra).
  assert (Hq1 : 0 < q <= 1.2).
  { split.
    - unfold q. apply Rdiv_lt_0_compat; lra.
    - unfold q. apply div_le_upper; lra. }
  assert (HD : 0 < 2 * (1 + w) ^ 2 + L) by nra.
  split; [exact HD|].
  apply div_le_upper; [exact HD|].
  assert (HP : (1 - q + w) * (w + 1e-17 + 2 * w ^ 2)
               <= L * (w + 1e-17 + 2 * w ^ 2)).
  { apply Rmult_le_compat_r; nra. }
  nra.
Qed.

Lemma halley1_pinned_below (x w : R) :
  x <= ln 1.2e-17 -> 0 < w <= 1.2e-17 -> halley1 x w = 1e-17.
Proof.
  intros Hx Hw. unfold halley1, residual1, curvature1.
  pose proof (ln_gap_bounds (w + 1e-17) 1.2e-17 ltac:(lra) ltac:(lra))
    as [Hlo _].
  set (L := ln (w + 1e-17) + w - x) in *.
  assert (HL : (1 - 1.2e-17 / (w + 1e-17)) + w <= L) by (unfold L; lra).
  destruct (halley_value_below_floor L w Hw HL) as [HD Hv].
  rewrite halley_closed_form by lra.
  apply Rmax_right, Hv.
Qed.

Lemma seed1_below (x : R) :
  x <= ln 1.2e-17 ->
  seed1 x = exp x * (1 - exp x) /\ 0 < seed1 x <= 1.2e-17.
Proof.
  intros Hx.
  assert (Hlo : ln 1.2e-17 < - 2).
  { rewrite <- (ln_exp (- 2)). apply ln_increasing; [lra|].
    pose proof exp_minus_2_lower. lra. }
  assert (He : 0 < exp x <= 1.2e-17).
  { split; [apply exp_pos|].
    rewrite <- (exp_ln 1.2e-17) by lra.
    destruct Hx as [Hx|Hx]; [left; apply exp_increasing, Hx|right; f_equal; exact Hx]. }
  rewrite seed1_is_seed_raw, seed_raw_low by lra.
  split; [reflexivity|nra].
Qed.

Lemma log_lambertw1_below (x : R) :
  x <= ln 1.2e-17 -> log_lambertw1 x = 1e-17.
Proof.
  intros Hx. unfold log_lambertw1.
  destruct (seed1_below x Hx) as [_ Hs].
  apply iter_absorbed; apply halley1_pinned_below; try assumption; lra.
Qed.

(** X3. Every entry of [x] at or below [ln 1.2e-17] (about -38.96) comes
    back as exactly the floor [1e-17]: there the first update already
    falls under the floor and the later ones stay under it.  So on such
    inputs the result no longer depends on [x]. *)
Theorem log_lambertw_saturates (x : vec) :
  Forall (fun xi => xi <= ln 1.2e-17) x ->
  log_lambertw x = Some (map (fun _ => 1e-17) x).
Proof.
  intros H. rewrite log_lambertw_pointwise. f_equal.
  apply map_ext_in. intros xi Hin.
  apply log_lambertw1_below. rewrite Forall_forall in H. apply H, Hin.
Qed.

(** The theorem at [x = [ln 1.2e-17; ln 1.2e-17 - 100]]. *)
Lemma log_lambertw_saturates_witness :
  log_lambertw [ln 1.2e-17; ln 1.2e-17 - 100] = Some [1e-17; 1e-17].
Proof.
  apply (log_lambertw_saturates [ln 1.2e-17; ln 1.2e-17 - 100]).
  apply Forall_cons; [lra|].
  apply Forall_cons; [lra|apply Forall_nil].
Defined.

(** ** Range of the proximal operator *)



(** X5. For positive [eps] and [rho], an entry of [x] at or above
    [rho + eps * (log(rho / eps) - ln 1.2e-17)] is mapped by
    [aprox_berg] to exactly [rho - eps * 1e-17]: beyond that point the
    proximal operator is constant. *)
Theorem aprox_berg_saturates (x : vec) (eps rho : R) :
  0 < eps -> 0 < rho ->
  Forall (fun xi => rho + eps * (ln (rho / eps) - ln 1.2e-17) <= xi) x ->
  aprox_berg x eps rho = Some (map (fun _ => rho - eps * 1e-17) x).
Proof.
  intros He Hr H. rewrite aprox_berg_pointwise. f_equal.
  apply map_ext_in. intros xi Hin. unfold aprox_berg1.
  rewrite Forall_forall in H. specialize (H xi Hin).
  rewrite log_lambertw1_below; [reflexivity|].
  assert (Hq : xi / eps >= rho / eps + (ln (rho / eps) - ln 1.2e-17)).
  { apply Rle_ge. apply div_le_lower; [exact He|].
    replace ((rho / eps + (ln (rho / eps) - ln 1.2e-17)) * eps)
      with (rho + eps * (ln (rho / eps) - ln 1.2e-17)) by (field; lra).
    exact H. }
  lra.
Qed.

(** The theorem at [eps = rho = 1], [x = [- ln 1.2e-17 + 1]]. *)
Lemma aprox_berg_saturates_witness :
  aprox_berg [1 + 1 * (ln (1 / 1) - ln 1.2e-17)] 1 1
  = Some [1 - 1 * 1e-17].
Proof.
  apply (aprox_berg_saturates [1 + 1 * (ln (1 / 1) - ln 1.2e-17)] 1 1);
    try lra.
  apply Forall_cons; [lra|apply Forall_nil].
Defined.

(** ** The Berg entropy and its derivatives *)

Lemma phis_berg_pointwise (x : vec) (s : R) :
  phis_berg x s = map (phis_berg1 s) x.
Proof. unfold phis_berg, sv, vs. rewrite !map_map. reflexivity. Qed.

Lemma grad_phis_berg_pointwise (x : vec) (s : R) :
  grad_phis_berg x s = map (dphi s) x.
Proof. unfold grad_phis_berg, sv, vs. rewrite !map_map. reflexivity. Qed.

Lemma hess_phis_berg_pointwise (x : vec) (s : R) :
  hess_phis_berg x s = map (d2phi s) x.
Proof. unfold hess_phis_berg, sv, vs. rewrite !map_map. reflexivity. Qed.

Lemma phis_ent_pointwise (M : matrix) (s : R) :
  phis_ent M s = map (map (phis_ent1 s)) M.
Proof.
  unfold phis_ent, sv, vs, neg. apply map_ext. intros r.
  rewrite !map_map. reflexivity.
Qed.

(** X6. [grad_phis_berg] is the derivative of [phis_berg]: both act
    entry by entry, and at every [xi] with [1 - xi / s > 0] the entry
    function [- s * log(1 - x / s)] has derivative [1 / (1 - xi / s)]. *)
Theorem grad_phis_berg_is_derivative (x : vec) (s xi : R) :
  s <> 0 -> 0 < 1 - xi / s ->
  phis_berg x s = map (fun v => - s * ln (1 - v / s)) x
  /\ grad_phis_berg x s = map (fun v => 1 / (1 - v / s)) x
  /\ derivable_pt_lim (fun v => - s * ln (1 - v / s)) xi (1 / (1 - xi / s)).
Proof.
  intros Hs Hpos. split; [apply phis_berg_pointwise|].
  split; [apply grad_phis_berg_pointwise|].
  assert (Hu : derivable_pt_lim (fun v => 1 - v / s) xi (- (1 / s))).
  { apply derivable_pt_lim_ext with (f := fun v => 1 + (- (1 / s)) * v).
    - intros v. field. exact Hs.
    - apply derivable_pt_lim_affine. }
  assert (Hl : derivable_pt_lim (comp ln (fun v => 1 - v / s)) xi
                 (/ (1 - xi / s) * (- (1 / s)))).
  { apply derivable_pt_lim_comp; [exact Hu|].
    apply derivable_pt_lim_ln, Hpos. }
  assert (H : derivable_pt_lim
                (mult_real_fct (- s) (comp ln (fun v => 1 - v / s))) xi
                (- s * (/ (1 - xi / s) * (- (1 / s))))).
  { apply derivable_pt_lim_scal, Hl. }
  replace (- s * (/ (1 - xi / s) * (- (1 / s)))) with (1 / (1 - xi / s)) in H
    by (field; repeat split; try assumption;
        apply unit_minus_ratio_nonzero; try assumption; lra).
  exact H.
Qed.

(** The theorem at [x = [0; 1]], [s = 2], [xi = 1]. *)
Lemma grad_phis_berg_is_derivative_witness :
  phis_berg [0; 1] 2 = map (fun v => - 2 * ln (1 - v / 2)) [0; 1]
  /\ grad_phis_berg [0; 1] 2 = map (fun v => 1 / (1 - v / 2)) [0; 1]
  /\ derivable_pt_lim (fun v => - 2 * ln (1 - v / 2)) 1 (1 / (1 - 1 / 2)).
Proof.
  apply (grad_phis_berg_is_derivative [0; 1] 2 1); lra.
Defined.

(** X7. [hess_phis_berg] is the derivative of [grad_phis_berg]: at every
    [xi] with [1 - xi / s <> 0] the entry function [1 / (1 - x / s)] has
    derivative [1 / (s * (1 - xi / s)^2)]. *)
Theorem hess_phis_berg_is_derivative (x : vec) (s xi : R) :
  s <> 0 -> 1 - xi / s <> 0 ->
  hess_phis_berg x s = map (fun v => 1 / (s * (1 - v / s) ^ 2)) x
  /\ derivable_pt_lim (fun v => 1 / (1 - v / s)) xi
       (1 / (s * (1 - xi / s) ^ 2)).
Proof.
  intros Hs Hnz. split; [apply hess_phis_berg_pointwise|].
  replace (1 / (s * (1 - xi / s) ^ 2))
    with (- (- (1 / s)) / (1 - xi / s) ^ 2)
    by (field; repeat split; try assumption;
        apply unit_minus_ratio_nonzero; assumption).
  apply (derivable_pt_lim_recip (fun v => 1 - v / s)); [|exact Hnz].
  apply derivable_pt_lim_ext with (f := fun v => 1 + (- (1 / s)) * v).
  - intros v. field. exact Hs.
  - apply derivable_pt_lim_affine.
Qed.

(** The theorem at [x = [0; 3]], [s = 2], [xi = 3]. *)
Lemma hess_phis_berg_is_derivative_witness :
  hess_phis_berg [0; 3] 2 = map (fun v => 1 / (2 * (1 - v / 2) ^ 2)) [0; 3]
  /\ derivable_pt_lim (fun v => 1 / (1 - v / 2)) 3
       (1 / (2 * (1 - 3 / 2) ^ 2)).
Proof.
  apply (hess_phis_berg_is_derivative [0; 3] 2 3); lra.
Defined.

(** X8. For [s > 0] the two entropy functions bracket the identity:
    every entry of [phis_ent(x, s)] is at most the entry of [x] it comes
    from, every entry of [phis_berg(x, s)] taken at [v < s] is at least
    [v], and both vanish at 0. *)
Theorem phis_bracket_identity (M : matrix) (x : vec) (s : R) :
  0 < s ->
  phis_ent M s = map (map (phis_ent1 s)) M
  /\ phis_berg x s = map (phis_berg1 s) x
  /\ (forall v : R, phis_ent1 s v <= v)
  /\ (forall v : R, v < s -> v <= phis_berg1 s v)
  /\ phis_ent1 s 0 = 0 /\ phis_berg1 s 0 = 0.
Proof.
  intros Hs. split; [apply phis_ent_pointwise|].
  split; [apply phis_berg_pointwise|]. repeat split.
  - intros v. unfold phis_ent1.
    assert (H : 1 + (- v / s) <= exp (- v / s)).
    { destruct (Req_dec (- v / s) 0) as [E|E].
      - rewrite E, exp_0. lra.
      - left. apply exp_ineq1, E. }
    assert (Hv : s * (- v / s) = - v) by (field; lra).
    nra.
  - intros v Hv. unfold phis_berg1.
    assert (Hq : v / s < 1).
    { apply (Rmult_lt_reg_r s); [exact Hs|].
      replace (v / s * s) with v by (field; lra). lra. }
    pose proof (ln_upper (1 - v / s) ltac:(lra)) as H.
    assert (Hm : s * (v / s) = v) by (field; lra).
    nra.
  - unfold phis_ent1. replace (- 0 / s) with 0 by (field; lra).
    rewrite exp_0. ring.
  - unfold phis_berg1. replace (1 - 0 / s) with 1 by (field; lra).
    rewrite ln_1. ring.
Qed.

(** The theorem at [M = [[0; 1]]], [x = [0; 1]], [s = 2]. *)
Lemma phis_bracket_identity_witness :
  phis_ent [[0; 1]] 2 = map (map (phis_ent1 2)) [[0; 1]]
  /\ phis_berg [0; 1] 2 = map (phis_berg1 2) [0; 1]
  /\ (forall v : R, phis_ent1 2 v <= v)
  /\ (forall v : R, v < 2 -> v <= phis_berg1 2 v)
  /\ phis_ent1 2 0 = 0 /\ phis_berg1 2 0 = 0.
Proof.
  apply (phis_bracket_identity [[0; 1]] [0; 1] 2). lra.
Defined.

(** ** The Newton iteration of [rescale_berg] *)

Lemma wsum_nonneg (h : R -> R) (a f : vec) :
  Forall (fun ai => 0 < ai) a -> Forall (fun fi => 0 < h fi) f ->
  0 <= wsum a h f.
Proof.
  intros Ha. revert f. unfold wsum.
  induction Ha as [|ai a Hai Ha IH]; intros f Hf; simpl.
  - rewrite sum_nil. lra.
  - destruct Hf as [|fi f Hfi Hf]; simpl.
    + rewrite sum_nil. lra.
    + rewrite sum_cons. specialize (IH f Hf). nra.
Qed.

Lemma wsum_pos (h : R -> R) (a f : vec) :
  a <> [] -> length a = length f ->
  Forall (fun ai => 0 < ai) a -> Forall (fun fi => 0 < h fi) f ->
  0 < wsum a h f.
Proof.
  intros Hne Hlen Ha Hf.
  destruct Ha as [|ai a Hai Ha]; [contradiction|].
  destruct Hf as [|fi f Hfi Hf]; [discriminate|].
  unfold wsum. simpl. rewrite sum_cons.
  pose proof (wsum_nonneg h a f Ha Hf) as H. unfold wsum in H. nra.
Qed.

Lemma d2phi_pos (s x : R) : 0 < s -> 1 - x / s <> 0 -> 0 < d2phi s x.
Proof.
  intros Hs Hnz. unfold d2phi.
  apply Rdiv_lt_0_compat; [lra|].
  apply Rmult_lt_0_compat; [exact Hs|].
  assert (0 < (1 - x / s) * (1 - x / s)) by nra. lra.
Qed.

(** X9. With arrays of matching lengths, positive [rho], [rho2] and
    positive weights, [a] not empty, and no vanishing denominator,
    [hess_invariant] is strictly negative: the Newton update of
    [rescale_berg] then never divides by zero. *)
Theorem hess_invariant_negative (f g a b : vec) (rho rho2 t : R) :
  length a = length f -> length b = length g ->
  0 < rho -> 0 < rho2 ->
  Forall (fun ai => 0 < ai) a -> Forall (fun bj => 0 < bj) b ->
  a <> [] ->
  Forall (fun fi => 1 - (- fi - t) / rho <> 0) f ->
  Forall (fun gj => 1 - (- gj + t) / rho2 <> 0) g ->
  exists h : R, hess_invariant t f g a b rho rho2 = Some h /\ h < 0.
Proof.
  intros Hla Hlb Hr Hr2 Ha Hb Hne Hf Hg.
  exists (hess1 f g a b rho rho2 t).
  split; [apply hess_invariant_sums; assumption|].
  unfold hess1.
  assert (H1 : 0 < wsum a (fun fi => d2phi rho (- fi - t)) f).
  { apply wsum_pos; try assumption.
    eapply Forall_impl; [|exact Hf]. intros fi Hfi.
    apply d2phi_pos; assumption. }
  assert (H2 : 0 <= wsum b (fun gj => d2phi rho2 (- gj + t)) g).
  { apply wsum_nonneg; try assumption.
    eapply Forall_impl; [|exact Hg]. intros gj Hgj.
    apply d2phi_pos; assumption. }
  lra.
Qed.

(** The theorem at [f = [0; 1]], [g = [0]], [a = [1; 2]], [b = [3]],
    [rho = 1], [rho2 = 2], [t = 0]. *)
Lemma hess_invariant_negative_witness :
  exists h : R, hess_invariant 0 [0; 1] [0] [1; 2] [3] 1 2 = Some h /\ h < 0.
Proof.
  apply (hess_invariant_negative [0; 1] [0] [1; 2] [3] 1 2 0);
    try reflexivity; try lra.
  - apply Forall_cons; [lra|]. apply Forall_cons; [lra|apply Forall_nil].
  - apply Forall_cons; [lra|apply Forall_nil].
  - discriminate.
  - apply Forall_cons; [lra|]. apply Forall_cons; [lra|apply Forall_nil].
  - apply Forall_cons; [lra|apply Forall_nil].
Defined.

Lemma iter_fixed {T : Type} (step : T -> T) (w : T) (n : nat) :
  step w = w -> Nat.iter n step w = w.
Proof.
  intros H. induction n as [|n IH]; [reflexivity|].
  change (step (Nat.iter n step w) = w). rewrite IH. exact H.
Qed.

(** X10. A stationary start is returned unchanged: with arrays of
    matching lengths, if [grad_invariant] is 0 at [init] and
    [hess_invariant] is not, [rescale_berg] returns [init] for every
    [nits]. *)
Theorem rescale_berg_stationary (f g a b : vec) (rho rho2 init : R)
  (nits : option Z) :
  length a = length f -> length b = length g ->
  grad_invariant init f g a b rho rho2 = Some 0 ->
  hess_invariant init f g a b rho rho2 <> Some 0 ->
  rescale_berg f g a b rho (Some rho2) nits (Some init) = Some init.
Proof.
  intros Hla Hlb Hg Hh.
  rewrite rescale_berg_newton by assumption. f_equal.
  apply iter_fixed. unfold newton1.
  rewrite grad_invariant_sums in Hg by assumption. injection Hg as ->.
  unfold Rdiv. rewrite Rmult_0_l. lra.
Qed.

(** The theorem at [f = g = [0]], [a = b = [1]], [rho = rho2 = 1],
    [init = 0], where the gradient is [1 - 1] and the Hessian [-2]. *)
Lemma rescale_berg_stationary_witness :
  rescale_berg [0] [0] [1] [1] 1 (Some 1) None (Some 0) = Some 0.
Proof.
  apply (rescale_berg_stationary [0] [0] [1] [1] 1 1 0 None);
    try reflexivity.
  - rewrite grad_invariant_sums by reflexivity. f_equal.
    unfold grad1, wsum, dphi, sum. simpl. field.
  - rewrite hess_invariant_sums by reflexivity.
    intros H. injection H as H.
    unfold hess1, wsum, d2phi, sum in H. simpl in H.
    assert (E : - (0 + 1 * (1 / (1 * ((1 - (- 0 - 0) / 1) * ((1 - (- 0 - 0) / 1) * 1)))))
                - (0 + 1 * (1 / (1 * ((1 - (- 0 + 0) / 1) * ((1 - (- 0 + 0) / 1) * 1)))))
                = - 2) by field.
    rewrite E in H. lra.
Defined.

(** ** Translating the potentials under [rescale_berg] *)

Lemma hess_phis_shift_left (f : vec) (s t rho : R) :
  hess_phis_berg (vs Rminus (neg (vs Rplus f s)) t) rho
  = hess_phis_berg (vs Rminus (neg f) (t + s)) rho.
Proof.
  unfold hess_phis_berg, sv, vs, neg. rewrite !map_map.
  apply map_ext. intros x. do 4 f_equal. lra.
Qed.

Lemma hess_phis_shift_right (g : vec) (s t rho2 : R) :
  hess_phis_berg (vs Rplus (neg (vs Rminus g s)) t) rho2
  = hess_phis_berg (vs Rplus (neg g) (t + s)) rho2.
Proof.
  unfold hess_phis_berg, sv, vs, neg. rewrite !map_map.
  apply map_ext. intros x. do 4 f_equal. lra.
Qed.

Lemma newton_body_translation (s t : R) (f g a b : vec) (rho rho2 : R) :
  newton_body (vs Rplus f s) (vs Rminus g s) a b rho rho2 t
  = option_map (fun r => r - s) (newton_body f g a b rho rho2 (t + s)).
Proof.
  unfold newton_body, grad_invariant, hess_invariant.
  rewrite grad_phis_shift_left, grad_phis_shift_right,
    hess_phis_shift_left, hess_phis_shift_right.
  destruct (vv Rmult a _) as [u|]; simpl; [|reflexivity].
  destruct (vv Rmult b _) as [v|]; simpl; [|reflexivity].
  destruct (vv Rmult a _) as [u'|]; simpl; [|reflexivity].
  destruct (vv Rmult b _) as [v'|]; simpl; [|reflexivity].
  f_equal. lra.
Qed.

Lemma for_range_conjugate (n : Z) (body body' : R -> option R) (s t : R) :
  (forall z, body z = option_map (fun r => r - s) (body' (z + s))) ->
  for_range n body t
  = option_map (fun r => r - s) (for_range n body' (t + s)).
Proof.
  intros H. unfold for_range.
  induction (Z.to_nat n) as [|m IH]; simpl.
  - f_equal. lra.
  - rewrite IH.
    destruct (Nat.iter m (fun acc => s' <- acc ;; body' s') (Some (t + s)))
      as [r|]; simpl; [|reflexivity].
    rewrite H. replace (r - s + s) with r by lra. reflexivity.
Qed.

(** X11. [rescale_berg] commutes with translation: run on the shifted
    potentials [f + s], [g - s] from [init = t], it returns the value it
    returns on [f], [g] from [init = t + s], minus [s].  This holds for
    every shape, [rho2] given or omitted, and every [nits]. *)
Theorem rescale_berg_translation (s t : R) (f g a b : vec) (rho : R)
  (rho2 : option R) (nits : option Z) :
  rescale_berg (vs Rplus f s) (vs Rminus g s) a b rho rho2 nits (Some t)
  = option_map (fun r => r - s)
      (rescale_berg f g a b rho rho2 nits (Some (t + s))).
Proof.
  unfold rescale_berg. simpl or_default.
  apply for_range_conjugate. intros z. apply newton_body_translation.
Qed.

(** ** Shapes accepted by [rescale_berg] *)

Lemma traverse_pure {A B : Type} (h : A -> B) (l : list A) :
  traverse (fun x => Some (h x)) l = Some (map h l).
Proof.
  induction l as [|x l IH]; simpl; [reflexivity|].
  rewrite IH. reflexivity.
Qed.

Lemma zip_with_none_iff (op : R -> R -> R) (u v : vec) :
  zip_with (fun x y => Some (op x y)) u v = None <-> length u <> length v.
Proof.
  revert v. induction u as [|x u IH]; intros [|y v]; simpl;
    try (split; [intros; discriminate|intros H; contradiction H; reflexivity]);
    try (split; [intros; discriminate|reflexivity]).
  specialize (IH v).
  destruct (zip_with (fun x0 y0 => Some (op x0 y0)) u v) as [r|]; simpl.
  - split; [discriminate|]. intros H. exfalso.
    assert (length u <> length v) by lia.
    destruct IH as [_ IH]. specialize (IH H0). discriminate.
  - split; [|reflexivity]. intros _.
    destruct IH as [IH _]. specialize (IH eq_refl). lia.
Qed.

Lemma vv_none_iff (op : R -> R -> R) (u v : vec) :
  vv op u v = None <-> compatible u v = false.
Proof.
  unfold vv, broadcast, compatible.
  destruct u as [|x1 [|x2 u]].
  - destruct v as [|y1 [|y2 v]]; simpl; split; try discriminate;
      try reflexivity.
  - rewrite traverse_pure.
    change (length [x1] =? 1)%nat with true.
    rewrite orb_true_r. simpl. split; discriminate.
  - destruct v as [|y1 [|y2 v]].
    + simpl. split; reflexivity.
    + rewrite traverse_pure.
      change (length [y1] =? 1)%nat with true.
      rewrite orb_true_r. split; discriminate.
    + rewrite zip_with_none_iff.
      change (length (y1 :: y2 :: v) =? 1)%nat with false.
      change (length (x1 :: x2 :: u) =? 1)%nat with false.
      rewrite !orb_false_r. rewrite Nat.eqb_neq. reflexivity.
Qed.

Lemma compatible_map_r (h : R -> R) (u v : vec) :
  compatible u (map h v) = compatible u v.
Proof. unfold compatible. rewrite length_map. reflexivity. Qed.

Lemma newton_body_none_iff (f g a b : vec) (rho rho2 t : R) :
  newton_body f g a b rho rho2 t = None
  <-> compatible a f && compatible b g = false.
Proof.
  unfold newton_body, grad_invariant, hess_invariant.
  rewrite grad_phis_berg_pointwise, hess_phis_berg_pointwise.
  rewrite grad_phis_berg_pointwise, hess_phis_berg_pointwise.
  unfold vs, neg. rewrite !map_map.
  pose proof (vv_none_iff Rmult a
                (map (fun x => dphi rho (- x - t)) f)) as G1.
  pose proof (vv_none_iff Rmult b
                (map (fun x => dphi rho2 (- x + t)) g)) as G2.
  pose proof (vv_none_iff Rmult a
                (map (fun x => d2phi rho (- x - t)) f)) as H1.
  pose proof (vv_none_iff Rmult b
                (map (fun x => d2phi rho2 (- x + t)) g)) as H2.
  rewrite compatible_map_r in G1, G2, H1, H2.
  destruct (vv Rmult a (map (fun x => dphi rho (- x - t)) f)),
    (vv Rmult b (map (fun x => dphi rho2 (- x + t)) g)),
    (vv Rmult a (map (fun x => d2phi rho (- x - t)) f)),
    (vv Rmult b (map (fun x => d2phi rho2 (- x + t)) g));
    simpl;
    destruct (compatible a f), (compatible b g); simpl;
    intuition discriminate.
Qed.

(** X12. Shape checking in [rescale_berg] happens only inside the loop.
    With [nits <= 0] it returns [init] without looking at the arrays,
    whatever their lengths.  With [nits >= 1] it fails exactly when [a]
    cannot be combined with [f] or [b] with [g], that is when the two
    lengths differ and neither is 1; a length-1 array is stretched, not
    rejected. *)
Theorem rescale_berg_shapes (f g a b : vec) (rho rho2 init : R) (nits : Z) :
  ((nits <= 0)%Z ->
   rescale_berg f g a b rho (Some rho2) (Some nits) (Some init) = Some init)
  /\ ((1 <= nits)%Z ->
      (rescale_berg f g a b rho (Some rho2) (Some nits) (Some init) = None
       <-> compatible a f && compatible b g = false)).
Proof.
  unfold rescale_berg, for_range. simpl or_default. split.
  - intros H. replace (Z.to_nat nits) with 0%nat by lia. reflexivity.
  - intros H. destruct (Z.to_nat nits) as [|m] eqn:E; [lia|]. clear E H.
    destruct (compatible a f && compatible b g) eqn:C.
    + split; [|discriminate]. intros H. exfalso. revert H.
      assert (Hb : forall z, newton_body f g a b rho rho2 z <> None).
      { intros z Hz. apply newton_body_none_iff in Hz. congruence. }
      generalize (S m). intros n. induction n as [|n IH]; simpl.
      * discriminate.
      * destruct (Nat.iter n _ (Some init)) as [r|]; simpl.
        -- apply Hb.
        -- intros _. apply IH. reflexivity.
    + split; [reflexivity|]. intros _. simpl.
      destruct (Nat.iter m _ (Some init)) as [r|]; simpl; [|reflexivity].
      apply newton_body_none_iff, C.
Qed.

(** The theorem at [f = [0; 1]], [g = [0]], [rho = rho2 = 1], [init = 5]:
    [nits = 0] with weights of a wrong length, then [nits = 1] with a
    length-1 [a] (accepted) and with a length-3 [a] (rejected). *)
Lemma rescale_berg_shapes_witness :
  rescale_berg [0; 1] [0] [1; 2; 3] [1] 1 (Some 1) (Some 0%Z) (Some 5)
  = Some 5
  /\ rescale_berg [0; 1] [0] [1] [1] 1 (Some 1) (Some 1%Z) (Some 5) <> None
  /\ rescale_berg [0; 1] [0] [1; 2; 3] [1] 1 (Some 1) (Some 1%Z) (Some 5)
     = None.
Proof.
  split; [|split].
  - apply (proj1 (rescale_berg_shapes [0; 1] [0] [1; 2; 3] [1] 1 1 5 0)).
    lia.
  - intros H.
    apply (proj2 (rescale_berg_shapes [0; 1] [0] [1] [1] 1 1 5 1)) in H;
      [discriminate H|lia].
  - apply (proj2 (rescale_berg_shapes [0; 1] [0] [1; 2; 3] [1] 1 1 5 1));
      [lia|reflexivity].
Defined.

(** ** How the loops relate *)

Lemma vs_minus_zero (x : vec) : vs Rminus x 0 = x.
Proof.
  unfold vs. rewrite <- (map_id x) at 2. apply map_ext. intros v.
  unfold id. lra.
Qed.

Lemma vs_plus_zero (x : vec) : vs Rplus x 0 = x.
Proof.
  unfold vs. rewrite <- (map_id x) at 2. apply map_ext. intros v.
  unfold id. lra.
Qed.

(** X13. With [nits <= 0] the two inner loops of [h_sinkhorn_loop] do
    not run and [t] is still 0 at both proximal updates, so the call is
    one [f_sinkhorn_loop] update followed by the final translation: it
    returns [(f' + t, g' - t)] with [(f', g')] the result of
    [f_sinkhorn_loop] and [t = rescale_berg(f', g', a, b, rho, rho2)]. *)
Theorem h_sinkhorn_loop_without_inner_passes
  (sinkx sinky : matrix -> vec -> vec -> R -> option vec)
  (f a b : vec) (C : matrix) (eps rho : R) (rho2 : option R) (nits : Z) :
  (nits <= 0)%Z ->
  h_sinkhorn_loop sinkx sinky f a b C eps rho rho2 (Some nits)
  = (p <- f_sinkhorn_loop sinkx sinky f a b C eps rho rho2 ;;
     t <- rescale_berg (fst p) (snd p) a b rho
            (Some (or_default rho2 rho)) None None ;;
     Some (vs Rplus (fst p) t, vs Rminus (snd p) t)).
Proof.
  intros Hn. unfold h_sinkhorn_loop, f_sinkhorn_loop, for_range.
  simpl or_default. replace (Z.to_nat nits) with 0%nat by lia.
  cbv zeta. simpl Nat.iter.
  destruct (sinkx C f a eps) as [gs|]; simpl bind; [|reflexivity].
  unfold h_update_g, h_update_f.
  rewrite vs_minus_zero. rewrite !aprox_berg_pointwise. simpl bind.
  rewrite vs_plus_zero.
  destruct (sinky C _ b eps) as [fs|]; simpl bind; [|reflexivity].
  rewrite vs_plus_zero. rewrite !aprox_berg_pointwise. simpl bind.
  rewrite vs_minus_zero. reflexivity.
Qed.

(** The theorem with [sinkx] and [sinky] returning their potential
    argument, at [f = [0]], [a = b = [1]], [C = [[0]]], [eps = rho = 1],
    [nits = 0]. *)
Lemma h_sinkhorn_loop_without_inner_passes_witness :
  h_sinkhorn_loop (fun _ u _ _ => Some u) (fun _ u _ _ => Some u)
    [0] [1] [1] [[0]] 1 1 None (Some 0%Z)
  = (p <- f_sinkhorn_loop (fun _ u _ _ => Some u) (fun _ u _ _ => Some u)
            [0] [1] [1] [[0]] 1 1 None ;;
     t <- rescale_berg (fst p) (snd p) [1] [1] 1 (Some 1) None None ;;
     Some (vs Rplus (fst p) t, vs Rminus (snd p) t)).
Proof.
  apply (h_sinkhorn_loop_without_inner_passes
           (fun _ u _ _ => Some u) (fun _ u _ _ => Some u)
           [0] [1] [1] [[0]] 1 1 None 0).
  lia.
Defined.




(** ** Translating the potentials under [dual_score_ent] *)

Section BroadcastMap.

Context {A A' B B' C C' : Type}.
Variables (op : A -> B -> option C) (op' : A' -> B' -> option C').
Variables (h1 : A' -> A) (h2 : B' -> B) (k : C' -> C).
Hypothesis op_maps :
  forall a b, op (h1 a) (h2 b) = option_map k (op' a b).

Lemma traverse_map_l (b : B') (u : list A') :
  traverse (fun x => op x (h2 b)) (map h1 u)
  = option_map (map k) (traverse (fun x => op' x b) u).
Proof.
  induction u as [|x u IH]; simpl; [reflexivity|].
  rewrite op_maps, IH.
  destruct (op' x b); simpl; [|reflexivity].
  destruct (traverse _ u); reflexivity.
Qed.

Lemma traverse_map_r (a : A') (v : list B') :
  traverse (op (h1 a)) (map h2 v)
  = option_map (map k) (traverse (op' a) v).
Proof.
  induction v as [|y v IH]; simpl; [reflexivity|].
  rewrite op_maps, IH.
  destruct (op' a y); simpl; [|reflexivity].
  destruct (traverse _ v); reflexivity.
Qed.

Lemma zip_with_map_both (u : list A') (v : list B') :
  zip_with op (map h1 u) (map h2 v)
  = option_map (map k) (zip_with op' u v).
Proof.
  revert v. induction u as [|x u IH]; intros [|y v]; simpl;
    try reflexivity.
  rewrite op_maps, IH.
  destruct (op' x y); simpl; [|reflexivity].
  destruct (zip_with op' u v); reflexivity.
Qed.

Lemma broadcast_map_both (u : list A') (v : list B') :
  broadcast op (map h1 u) (map h2 v)
  = option_map (map k) (broadcast op' u v).
Proof.
  unfold broadcast.
  destruct u as [|x1 [|x2 u]].
  - destruct v as [|y1 [|y2 v]]; reflexivity.
  - apply (traverse_map_r x1 v).
  - destruct v as [|y1 [|y2 v]].
    + reflexivity.
    + apply (traverse_map_l y1 (x1 :: x2 :: u)).
    + apply (zip_with_map_both (x1 :: x2 :: u) (y1 :: y2 :: v)).
Qed.

End BroadcastMap.

Lemma option_map_id_ext {T : Type} (h : T -> T) (o : option T) :
  (forall x, h x = x) -> option_map h o = o.
Proof. intros H. destruct o; simpl; [rewrite H|]; reflexivity. Qed.

(** The array [C - f[:, None] - g[None, :]] is unchanged by the shift. *)
Lemma cost_minus_potentials_translation (C : matrix) (f g : vec) (s : R) :
  (cf <- mm Rminus C (column (vs Rplus f s)) ;;
   mm Rminus cf (row (vs Rminus g s)))
  = (cf <- mm Rminus C (column f) ;; mm Rminus cf (row g)).
Proof.
  assert (E1 : mm Rminus C (column (vs Rplus f s))
               = option_map (map (map (fun x => x - s)))
                   (mm Rminus C (column f))).
  { unfold column, vs. rewrite map_map.
    replace (map (fun x => [x + s]) f)
      with (map (map (fun x => x + s)) (map (fun x => [x]) f))
      by (rewrite map_map; reflexivity).
    rewrite <- (map_id C) at 1. unfold mm.
    apply broadcast_map_both. intros r r'. unfold vv, id.
    rewrite <- (map_id r) at 1.
    apply broadcast_map_both. intros x y. simpl. f_equal. unfold id. lra. }
  rewrite E1.
  destruct (mm Rminus C (column f)) as [cf|]; simpl; [|reflexivity].
  unfold row, vs.
  change [map (fun xi => xi - s) g]
    with (map (map (fun x => x - s)) [g]).
  unfold mm.
  rewrite (broadcast_map_both (vv Rminus) (vv Rminus)
             (map (fun x => x - s)) (map (fun x => x - s))
             (fun r : vec => r)).
  - apply option_map_id_ext. intros M. apply map_id.
  - intros r r'. unfold vv.
    rewrite (broadcast_map_both (fun x y => Some (x - y))
               (fun x y => Some (x - y))
               (fun x => x - s) (fun x => x - s) (fun x : R => x)).
    + destruct (broadcast (fun x y => Some (x - y)) r r'); simpl;
        [rewrite map_id|]; reflexivity.
    + intros x y. simpl. f_equal. lra.
Qed.

(** X15. Shifting the potentials to [f + s], [g - s] leaves the entropic
    term of [dual_score_ent] untouched, because the cost matrix enters
    only through [C - f_i - g_j]: for weights of the lengths of [f] and
    [g], whenever the score of [(f, g)] is defined, the score of the
    shifted pair is defined and differs from it exactly by the change of
    the two marginal sums. *)
Theorem dual_score_ent_translation (s : R) (f g a b : vec) (C : matrix)
  (eps rho : R) (rho2 : option R) (v : R) :
  length a = length f -> length b = length g ->
  dual_score_ent f g a b C eps rho rho2 = Some v ->
  dual_score_ent (vs Rplus f s) (vs Rminus g s) a b C eps rho rho2
  = Some (v
          + (wsum a (phis_berg1 rho) (vs Rplus f s)
             - wsum a (phis_berg1 rho) f)
          + (wsum b (phis_berg1 (or_default rho2 rho)) (vs Rminus g s)
             - wsum b (phis_berg1 (or_default rho2 rho)) g)).
Proof.
  intros Ha Hb. unfold dual_score_ent.
  pose proof (cost_minus_potentials_translation C f g s) as E.
  assert (Ha' : length a = length (vs Rplus f s))
    by (unfold vs; rewrite length_map; exact Ha).
  assert (Hb' : length b = length (vs Rminus g s))
    by (unfold vs; rewrite length_map; exact Hb).
  set (f' := vs Rplus f s) in *. set (g' := vs Rminus g s) in *.
  rewrite !phis_berg_pointwise.
  rewrite !vv_weighted by assumption. simpl bind.
  destruct (mm Rmult (column a) (row b)) as [ab|]; simpl bind;
    [|discriminate].
  destruct (mm Rminus C (column f')) as [cf'|];
    destruct (mm Rminus C (column f)) as [cf|]; simpl bind in E |- *;
    try discriminate.
  - rewrite E.
    destruct (mm Rminus cf (row g)) as [cfg|]; simpl bind; [|discriminate].
    destruct (mm Rmult ab (phis_ent cfg eps)) as [t3|]; simpl bind;
      [|discriminate].
    intros H. injection H as <-. f_equal. unfold wsum. lra.
  - destruct (mm Rminus cf (row g)) as [cfg|]; simpl bind;
      [discriminate E|discriminate].
Qed.

(** The theorem at [f = [0]], [g = [0]], [a = [1]], [b = [1]],
    [C = [[0]]], [eps = 1], [rho = 2], shifted by [s = 1]. *)
Lemma dual_score_ent_translation_witness :
  dual_score_ent [0] [0] [1] [1] [[0]] 1 2 None
  = Some (0 + 1 * phis_berg1 2 0 + (0 + 1 * phis_berg1 2 0)
          + (0 + 1 * 1 * phis_ent1 1 (0 - 0 - 0)))
  /\ dual_score_ent (vs Rplus [0] 1) (vs Rminus [0] 1) [1] [1] [[0]] 1 2 None
     = Some (0 + 1 * phis_berg1 2 0 + (0 + 1 * phis_berg1 2 0)
             + (0 + 1 * 1 * phis_ent1 1 (0 - 0 - 0))
             + (wsum [1] (phis_berg1 2) (vs Rplus [0] 1)
                - wsum [1] (phis_berg1 2) [0])
             + (wsum [1] (phis_berg1 (or_default None 2)) (vs Rminus [0] 1)
                - wsum [1] (phis_berg1 (or_default None 2)) [0])).
Proof.
  assert (E : dual_score_ent [0] [0] [1] [1] [[0]] 1 2 None
              = Some (0 + 1 * phis_berg1 2 0 + (0 + 1 * phis_berg1 2 0)
                      + (0 + 1 * 1 * phis_ent1 1 (0 - 0 - 0))))
    by reflexivity.
  split; [exact E|].
  exact (dual_score_ent_translation 1 [0] [0] [1] [1] [[0]] 1 2 None _
           eq_refl eq_refl E).
Defined.

(** ** The measures of the Berg example script *)

Lemma sum_scaled (x : vec) (c : R) : sum (vs Rdiv x c) = sum x / c.
Proof.
  unfold vs. induction x as [|v x IH]; simpl.
  - rewrite sum_nil. unfold Rdiv. rewrite Rmult_0_l. reflexivity.
  - rewrite !sum_cons, IH. unfold Rdiv. ring.
Qed.

Lemma sum_positive (x : vec) :
  x <> [] -> Forall (fun v => 0 < v) x -> 0 < sum x.
Proof.
  intros Hne H. induction H as [|v x Hv Hx IH]; [contradiction|].
  rewrite sum_cons. destruct x as [|w x].
  - rewrite sum_nil. lra.
  - assert (0 < sum (w :: x)) by (apply IH; discriminate). lra.
Qed.

Lemma normalize_facts (x : vec) :
  sum x <> 0 ->
  length (normalize x) = length x
  /\ sum (normalize x) = 1
  /\ (Forall (fun v => 0 < v) x -> Forall (fun v => 0 < v) (normalize x)).
Proof.
  intros Hs. unfold normalize. split; [|split].
  - unfold vs. apply length_map.
  - rewrite sum_scaled. field. exact Hs.
  - intros Hp. destruct x as [|v0 x]; [constructor|].
    assert (Hsum : 0 < sum (v0 :: x))
      by (apply sum_positive; [discriminate|exact Hp]).
    unfold vs. apply Forall_map.
    eapply Forall_impl; [|exact Hp]. intros v Hv.
    apply Rdiv_lt_0_compat; assumption.
Qed.

(** X16. [normalize] keeps the length of its argument and, when the
    entries do not sum to 0, returns entries that sum to 1; positive
    entries stay positive. *)
Theorem normalize_sums_to_one (x : vec) :
  sum x <> 0 ->
  length (normalize x) = length x
  /\ sum (normalize x) = 1
  /\ (Forall (fun v => 0 < v) x -> Forall (fun v => 0 < v) (normalize x)).
Proof.
  apply normalize_facts.
Qed.

(** The theorem at [x = [2; 3]]. *)
Lemma normalize_sums_to_one_witness :
  length (normalize [2; 3]) = length [2; 3]
  /\ sum (normalize [2; 3]) = 1
  /\ (Forall (fun v => 0 < v) [2; 3]
      -> Forall (fun v => 0 < v) (normalize [2; 3])).
Proof.
  apply (normalize_sums_to_one [2; 3]).
  unfold sum. simpl. lra.
Defined.

Lemma gauss_pointwise (grid : vec) (mu sig : R) :
  gauss grid mu sig
  = map (fun y => exp (-0.5 * ((y - mu) / sig) ^ 2)) grid.
Proof. unfold gauss, sv, vs. rewrite !map_map. reflexivity. Qed.



Lemma linspace_defined (start stop : R) (n : Z) :
  (0 <= n)%Z ->
  exists x : vec,
    linspace start stop n = Some x /\ length x = Z.to_nat n.
Proof.
  intros Hn. unfold linspace.
  destruct (n <? 0)%Z eqn:E; [apply Z.ltb_lt in E; lia|].
  eexists. split; [reflexivity|].
  destruct (Z.to_nat n) as [|[|m]]; try reflexivity.
  rewrite length_map, length_seq. reflexivity.
Qed.

Lemma fill_prefix_then_suffix (z : vec) (k : Z) (c1 c2 : R) :
  fill_suffix (fill_prefix z k c1) k c2
  = map (fun _ => c1) (firstn (Z.to_nat k) z)
    ++ map (fun _ => c2) (skipn (Z.to_nat k) z).
Proof.
  unfold fill_suffix, fill_prefix.
  set (n := Z.to_nat k).
  assert (Hl : length (map (fun _ : R => c1) (firstn n z))
               = Nat.min n (length z))
    by (rewrite length_map; apply length_firstn).
  rewrite firstn_app, skipn_app.
  rewrite (firstn_all2 (n := n) (map (fun _ : R => c1) (firstn n z)))
    by lia.
  rewrite (skipn_all2 (n := n) (map (fun _ : R => c1) (firstn n z)))
    by lia.
  destruct (le_lt_dec n (length z)) as [Hle|Hgt].
  - replace (n - length (map (fun _ : R => c1) (firstn n z)))%nat
      with 0%nat by lia.
    simpl. rewrite app_nil_r. reflexivity.
  - rewrite (skipn_all2 z) by lia.
    rewrite firstn_nil, skipn_nil. simpl. rewrite app_nil_r. reflexivity.
Qed.

Lemma fill_prefix_then_suffix_positive (z : vec) (k : Z) (c1 c2 : R) :
  0 < c1 -> 0 < c2 ->
  length (fill_suffix (fill_prefix z k c1) k c2) = length z
  /\ Forall (fun v => 0 < v) (fill_suffix (fill_prefix z k c1) k c2).
Proof.
  intros H1 H2. rewrite fill_prefix_then_suffix. split.
  - rewrite length_app, !length_map, <- length_app, firstn_skipn.
    reflexivity.
  - apply Forall_app. split; apply Forall_map, Forall_forall; auto.
Qed.

(** X18. [generate_measure(N)] raises for [N < 0] (from [np.linspace]),
    and for [N >= 1] returns four arrays of length [N] in which the two
    weight arrays [a] and [b] have positive entries that sum to 1: the
    experiment runs on two probability vectors. *)
Theorem generate_measure_probabilities (N : Z) :
  ((N < 0)%Z -> generate_measure N = None)
  /\ ((1 <= N)%Z ->
      exists a x b y : vec,
        generate_measure N = Some (a, x, b, y)
        /\ length a = Z.to_nat N /\ length x = Z.to_nat N
        /\ length b = Z.to_nat N /\ length y = Z.to_nat N
        /\ sum a = 1 /\ sum b = 1
        /\ Forall (fun v => 0 < v) a /\ Forall (fun v => 0 < v) b).
Proof.
  split.
  - intros H. unfold generate_measure, linspace.
    apply Z.ltb_lt in H. rewrite H. reflexivity.
  - intros H. unfold generate_measure.
    destruct (linspace_defined 0.2 0.4 N ltac:(lia)) as [x [Ex Lx]].
    destruct (linspace_defined 0.45 0.95 N ltac:(lia)) as [y [Ey Ly]].
    rewrite Ex, Ey. simpl bind.
    rewrite !gauss_pointwise.
    rewrite vv_map. simpl bind. rewrite vv_map. simpl bind.
    set (araw := fill_suffix (fill_prefix (zeros_like x) (N / 2) 2)
                   (N / 2) 3).
    set (braw := map (fun y0 =>
                        exp (-0.5 * ((y0 - 0.6) / 0.03) ^ 2)
                        + exp (-0.5 * ((y0 - 0.7) / 0.03) ^ 2)
                        + exp (-0.5 * ((y0 - 0.8) / 0.03) ^ 2)) y).
    destruct (fill_prefix_then_suffix_positive (zeros_like x) (N / 2) 2 3
                ltac:(lra) ltac:(lra)) as [La Pa].
    fold araw in La, Pa.
    assert (La' : length araw = Z.to_nat N)
      by (rewrite La; unfold zeros_like; rewrite length_map; exact Lx).
    assert (Lb : length braw = Z.to_nat N)
      by (unfold braw; rewrite length_map; exact Ly).
    assert (Pb : Forall (fun v => 0 < v) braw).
    { unfold braw. apply Forall_map, Forall_forall. intros y0 _.
      pose proof (exp_pos (-0.5 * ((y0 - 0.6) / 0.03) ^ 2)).
      pose proof (exp_pos (-0.5 * ((y0 - 0.7) / 0.03) ^ 2)).
      pose proof (exp_pos (-0.5 * ((y0 - 0.8) / 0.03) ^ 2)).
      lra. }
    assert (Na : araw <> []) by (intros E; rewrite E in La'; simpl in La'; lia).
    assert (Nb : braw <> []) by (intros E; rewrite E in Lb; simpl in Lb; lia).
    assert (Sa : sum araw <> 0)
      by (pose proof (sum_positive araw Na Pa); lra).
    assert (Sb : sum braw <> 0)
      by (pose proof (sum_positive braw Nb Pb); lra).
    destruct (normalize_facts araw Sa) as [Ha1 [Ha2 Ha3]].
    destruct (normalize_facts braw Sb) as [Hb1 [Hb2 Hb3]].
    exists (normalize araw), x, (normalize braw), y.
    split; [reflexivity|].
    split; [rewrite Ha1; exact La'|].
    split; [exact Lx|].
    split; [rewrite Hb1; exact Lb|].
    split; [exact Ly|].
    split; [exact Ha2|].
    split; [exact Hb2|].
    split; [apply Ha3, Pa|apply Hb3, Pb].
Qed.

(** The theorem at [N = -1] and at [N = 3]. *)
Lemma generate_measure_probabilities_witness :
  generate_measure (-1) = None
  /\ exists a x b y : vec,
       generate_measure 3 = Some (a, x, b, y)
       /\ length a = Z.to_nat 3 /\ length x = Z.to_nat 3
       /\ length b = Z.to_nat 3 /\ length y = Z.to_nat 3
       /\ sum a = 1 /\ sum b = 1
       /\ Forall (fun v => 0 < v) a /\ Forall (fun v => 0 < v) b.
Proof.
  split.
  - apply (proj1 (generate_measure_probabilities (-1))). lia.
  - apply (proj2 (generate_measure_probabilities 3)). lia.
Defined.
